(** * Magic Formula rotation engine: a shallow embedding of [magic_formula.py]

    The algorithm object of [src/magic_formula.py] is embedded as a record of
    its mutable attributes, threaded through a small state/error/log monad.
    The host platform (LEAN) is represented only by what the algorithm reads
    from it ([IsWarmingUp], [Time.month], the snapshot lists) and by the
    intents the algorithm sends to it ([Liquidate], [SetHoldings]).

    Layout: Python built-ins first ([PyFloat], [sorted], slicing, [Dict]),
    then the host's data types, the algorithm's methods, the host's driving
    loop, and finally the lemmas and the properties of the specification. *)

From Stdlib Require Import ZArith QArith List String Bool Lia Lqa.
From Stdlib Require Import Sorting.Sorted Sorting.Permutation.
From Stdlib Require Import Floats.SpecFloat.
Import ListNotations.

Open Scope Z_scope.

(* ================================================================== *)
(** * Python built-ins used by the algorithm *)

(** ** Binary64 floats

    The configuration arithmetic of [Initialize] is done on Python floats.
    They are IEEE-754 binary64 numbers, embedded with the reference
    implementation of the Standard Library ([spec_float], all on [Z]). *)
Module PyFloat.

Definition prec : Z := 53.
Definition emax : Z := 1024.

Definition float := spec_float.

(** [float(n)] for an integer [n] (round to nearest even). *)
Definition of_int (n : Z) : float := binary_normalize prec emax n 0 false.

(** [x / y] on floats with a non-zero divisor (a zero divisor raises in
    Python; no division of the algorithm has one). *)
Definition truediv (x y : float) : float := SFdiv prec emax x y.

(** The rational number a float denotes (0 for the non-finite ones). *)
Definition to_Q (x : float) : Q :=
    match x with
    | S754_finite s m e =>
        let n := if s then Z.neg m else Z.pos m in
        if 0 <=? e then inject_Z (n * 2 ^ e)
        else Qmake n (Z.to_pos (2 ^ (- e)))
    | _ => 0%Q
    end.

(** [int(x)]: truncation toward zero.  Python raises on infinities and
    NaN; they are sent to 0 here and never arise in [Initialize]. *)
Definition to_int (x : float) : Z :=
    match x with
    | S754_finite s m e =>
        let n := if s then Z.neg m else Z.pos m in
        if 0 <=? e then n * 2 ^ e else Z.quot n (2 ^ (- e))
    | _ => 0
    end.

(** Nearest integer to the rational [q], ties to even. *)
Definition round_half_even (q : Q) : Z :=
    let d := Z.pos (Qden q) in
    let f := Qnum q / d in
    let r := Qnum q mod d in
    match 2 * r ?= d with
    | Lt => f
    | Gt => f + 1
    | Eq => if Z.even f then f else f + 1
    end.

(** The float nearest to the quotient of the integers [n] and [d], with
    the sign [s] (ties to even; the quotient is rounded once). *)
Definition of_quotient (s : bool) (n d : positive) : float :=
    SFdiv prec emax (S754_finite s n 0) (S754_finite false d 0).

Definition NDIGITS_MAX : Z := 323.
Definition NDIGITS_MIN : Z := -308.

(** [round(x, ndigits)] for a float [x]: CPython prints the exact value of
    [x] correctly rounded to [ndigits] decimals (ties to even) and reads the
    decimal string back, correctly rounded.  A result of zero has the sign
    of [x].  Beyond [NDIGITS_MAX] decimals [x] is returned, under
    [NDIGITS_MIN] a zero; non-finite and zero arguments are returned as
    they are.  (With [ndigits < 0] the rounded value can exceed the largest
    float, where Python raises; it is the infinity here.) *)
Definition round (x : float) (ndigits : Z) : float :=
    match x with
    | S754_finite s _ _ =>
        if NDIGITS_MAX <? ndigits then x
        else if ndigits <? NDIGITS_MIN then S754_zero s
        else if 0 <=? ndigits then
          let scale := 10 ^ ndigits in
          match round_half_even (to_Q x * inject_Z scale) with
          | Z0 => S754_zero s
          | Zpos k | Zneg k => of_quotient s k (Z.to_pos scale)
          end
        else
          let scale := 10 ^ (- ndigits) in
          binary_normalize prec emax
            (round_half_even (to_Q x / inject_Z scale) * scale) 0 s
    | _ => x
    end.

End PyFloat.

(** ** Comparisons of numeric snapshot fields

    The fields a strict screen reads are embedded as rationals and compared
    with the decidable order of [Q]: a NaN there fails the screen, and the
    snapshot is dropped as any other that fails it. *)
Definition Qltb (x y : Q) : bool :=
  match (x ?= y)%Q with Lt => true | _ => false end.

Definition Qgtb (x y : Q) : bool := Qltb y x.

(** ** Floats used as sort keys

    A sort key is a float that no screen has looked at.  A finite one is the
    rational it denotes.  NaN, which stands for a missing value, is kept
    apart: no comparison with it holds.  (An infinity compares with the
    numbers as a number beyond all of them does, and gets no constructor.) *)
Inductive number :=
| Num (q : Q)
| NaN.

Definition is_nan (x : number) : bool :=
  match x with NaN => true | Num _ => false end.

(** The rational a key denotes (0 for NaN). *)
Definition value (x : number) : Q :=
  match x with Num q => q | NaN => 0%Q end.

(** [x < y] on floats. *)
Definition number_ltb (x y : number) : bool :=
  match x, y with
  | Num a, Num b => Qltb a b
  | _, _ => false
  end.

(** ** [sorted(l, key=..., reverse=...)]

    Python's sort is stable, and with [reverse=True] equal elements still
    keep their original order.  For keys in a total order a stable sort has
    one possible result; it is computed here by stable insertion. *)
Section Sorted.
Context {A : Type}.
Variable key : A -> Q.
Variable reverse : bool.

(** [precedes y x]: [y] has to come strictly before [x]. *)
Definition precedes (y x : A) : bool :=
    if reverse then Qltb (key x) (key y) else Qltb (key y) (key x).

Fixpoint insert_sorted (x : A) (l : list A) : list A :=
    match l with
    | [] => [x]
    | y :: l' => if precedes y x then y :: insert_sorted x l' else x :: l
    end.

Definition stable_sorted (l : list A) : list A :=
    fold_right insert_sorted [] l.
End Sorted.

Arguments stable_sorted {A} key reverse l.

(** With a NaN among the keys the comparisons order nothing consistently,
    and what the sort returns depends on which comparisons its merge
    strategy happens to make.  Two things hold whatever the strategy.  A
    list in which no element compares as having to come before its
    predecessor is taken for one ascending run and returned as it is (with
    [reverse=True] the list is reversed before the sort and after it, so
    the test reads the other way round).  And the result is a permutation
    of the list.  What CPython does with the other lists is a parameter of
    the embedding. *)
Class Timsort := {
  unordered_sort : forall A : Type, (A -> number) -> bool -> list A -> list A;
  unordered_sort_perm :
    forall (A : Type) (key : A -> number) (reverse : bool) (l : list A),
      Permutation l (unordered_sort A key reverse l)
}.

Section PySorted.
Context `{Timsort} {A : Type}.
Variable key : A -> number.
Variable reverse : bool.

(** [comes_before y x]: the comparison says [y] has to come before [x]. *)
Definition comes_before (y x : A) : bool :=
    if reverse then number_ltb (key x) (key y) else number_ltb (key y) (key x).

Fixpoint already_in_order (l : list A) : bool :=
    match l with
    | [] => true
    | a :: rest =>
        match rest with
        | [] => true
        | b :: _ => negb (comes_before b a) && already_in_order rest
        end
    end.

Definition sorted (l : list A) : list A :=
    if existsb (fun x => is_nan (key x)) l
    then if already_in_order l then l else unordered_sort A key reverse l
    else stable_sorted (fun x => value (key x)) reverse l.
End PySorted.

Arguments sorted {_ A} key reverse l.

(** ** Slicing [l[:n]] *)
Definition slice_to {A : Type} (n : Z) (l : list A) : list A :=
  if n <? 0
  then firstn (List.length l - Z.to_nat (- n)) l
  else firstn (Z.to_nat n) l.

(* ================================================================== *)
(** * Host data types *)

(** A symbol is identified by its ticker. *)
Definition Symbol := string.
Bind Scope string_scope with Symbol.

(** ** [dict] keyed by symbols

    A Python dict keeps its keys in insertion order, and that order is the
    order in which [sell_securities] sends liquidations; the ledger is an
    association list with at most one entry per key. *)
Module Dict.

Definition dict (V : Type) := list (Symbol * V).

Definition empty {V} : dict V := [].

Definition items {V} (d : dict V) : list (Symbol * V) := d.

Definition keys {V} (d : dict V) : list Symbol := map fst d.

Fixpoint get {V} (k : Symbol) (d : dict V) : option V :=
    match d with
    | [] => None
    | (k', v) :: d' => if String.eqb k k' then Some v else get k d'
    end.

(** [k in d] *)
Definition contains {V} (k : Symbol) (d : dict V) : bool :=
    match get k d with Some _ => true | None => false end.

(** [d[k] = v]: an existing key keeps its position, a new one goes last. *)
Fixpoint setitem {V} (k : Symbol) (v : V) (d : dict V) : dict V :=
    match d with
    | [] => [(k, v)]
    | (k', v') :: d' =>
        if String.eqb k k' then (k', v) :: d' else (k', v') :: setitem k v d'
    end.

(** [d.pop(k)]: [None] stands for Python's [KeyError]. *)
Fixpoint pop {V} (k : Symbol) (d : dict V) : option (V * dict V) :=
    match d with
    | [] => None
    | (k', v) :: d' =>
        if String.eqb k k' then Some (v, d')
        else match pop k d' with
             | Some (w, d'') => Some (w, (k', v) :: d'')
             | None => None
             end
    end.

(** The invariant of a real dict: no key occurs twice. *)
Definition wf {V} (d : dict V) : Prop := NoDup (keys d).

End Dict.

(** ** Snapshots *)

(** The sector enumeration belongs to the host library; only the two codes
    the algorithm names are needed, with the values the host gives them. *)
Module MorningstarSectorCode.
Definition FinancialServices : Z := 103.
Definition Utilities : Z := 207.
End MorningstarSectorCode.

(** [DollarVolume] is only a sort key and may be NaN. *)
Module CoarseFundamental.
Record t := {
    Symbol : Symbol;
    HasFundamentalData : bool;
    DollarVolume : number
  }.
End CoarseFundamental.

(** [MarketCap] and [ForwardROA] are read by strict screens, which a NaN
    fails; [EVToEBITDA] is only a sort key and may be NaN. *)
Module FineFundamental.
Record CompanyReference_t := {
    CountryId : string;
    PrimaryExchangeID : string
  }.
Record AssetClassification_t := {
    MorningstarSectorCode : Z
  }.
Record ValuationRatios_t := {
    ForwardROA : Q;
    EVToEBITDA : number
  }.
Record t := {
    Symbol : Symbol;
    MarketCap : Q;
    CompanyReference : CompanyReference_t;
    AssetClassification : AssetClassification_t;
    ValuationRatios : ValuationRatios_t
  }.
End FineFundamental.

(** [changes.AddedSecurities] carries the securities the universe gained. *)
Module Security.
Record t := {
    Symbol : Symbol
  }.
End Security.

Record SecurityChanges := {
  AddedSecurities : list Security.t;
  RemovedSecurities : list Security.t
}.

(** What a method reads from the host when it runs. *)
Record Env := {
  IsWarmingUp : bool;
  Time_month : Z          (* [self.Time.month] *)
}.

(** The result of a universe selection function. *)
Inductive UniverseSelection :=
| Unchanged                         (* [Universe.Unchanged] *)
| Selected (symbols : list Symbol).

(** What the algorithm does that can be observed: the intents sent to the
    host, and the writes to the holding ledger. *)
Inductive Action :=
| Liquidate (symbol : Symbol)
| SetHoldings (symbol : Symbol) (percentage : PyFloat.float)
              (liquidateExistingHoldings : bool)
| LedgerPop (symbol : Symbol)
| LedgerStore (symbol : Symbol) (month : Z).

(* ================================================================== *)
(** * The algorithm object *)

(** The attributes that change during a run.  [month] is created by the
    first assignment in [CoarseFilterFunction]: before it, reading it
    raises [AttributeError]. *)
Record State := {
  lastMonth : Z;
  month : option Z;
  purchased_securities : Dict.dict Z
}.

Inductive PyError :=
| AttributeError (attribute : string)
| KeyError (key : Symbol).

Inductive outcome (A : Type) :=
| Ok (value : A) (st : State) (log : list Action)
| Raise (e : PyError).
Arguments Ok {A} value st log.
Arguments Raise {A} e.

(** Computations over the algorithm object. *)
Definition M (A : Type) := State -> outcome A.

Definition ret {A} (a : A) : M A := fun st => Ok a st [].

Definition bind {A B} (m : M A) (f : A -> M B) : M B :=
  fun st =>
    match m st with
    | Raise e => Raise e
    | Ok a st1 log1 =>
        match f a st1 with
        | Raise e => Raise e
        | Ok b st2 log2 => Ok b st2 (log1 ++ log2)
        end
    end.

Notation "x <- m ;; k" := (bind m (fun x => k))
  (at level 61, m at next level, right associativity).
Notation "m ;;; k" := (bind m (fun _ => k))
  (at level 61, right associativity).

Definition gets {A} (f : State -> A) : M A := fun st => Ok (f st) st [].

Definition raise {A} (e : PyError) : M A := fun _ => Raise e.

Definition emit (a : Action) : M unit := fun st => Ok tt st [a].

(** [self.month], an attribute that may not exist yet. *)
Definition read_month : M Z :=
  fun st =>
    match month st with
    | Some m => Ok m st []
    | None => Raise (AttributeError "month")
    end.

Definition assign_month (m : Z) : M unit :=
  fun st => Ok tt {| lastMonth := lastMonth st;
                     month := Some m;
                     purchased_securities := purchased_securities st |} [].

Definition assign_lastMonth (m : Z) : M unit :=
  fun st => Ok tt {| lastMonth := m;
                     month := month st;
                     purchased_securities := purchased_securities st |} [].

(** [self.purchased_securities[k] = v] *)
Definition ledger_store (k : Symbol) (v : Z) : M unit :=
  fun st => Ok tt {| lastMonth := lastMonth st;
                     month := month st;
                     purchased_securities :=
                       Dict.setitem k v (purchased_securities st) |}
               [LedgerStore k v].

(** [self.purchased_securities.pop(k)] *)
Definition ledger_pop (k : Symbol) : M unit :=
  fun st =>
    match Dict.pop k (purchased_securities st) with
    | Some (_, d) => Ok tt {| lastMonth := lastMonth st;
                              month := month st;
                              purchased_securities := d |}
                        [LedgerPop k]
    | None => Raise (KeyError k)
    end.

(** [for x in l: body x] *)
Fixpoint for_each {A} (l : list A) (body : A -> M unit) : M unit :=
  match l with
  | [] => ret tt
  | x :: l' => body x ;;; for_each l' body
  end.

(** ** [Initialize] *)

Definition NumberSecurtitiesPortfolio : Z := 24.
Definition MonthsToKeepSecurities : Z := 12.

Definition NumberSecuritiesPerMonth : Z :=
  PyFloat.to_int (PyFloat.truediv (PyFloat.of_int NumberSecurtitiesPortfolio)
                                  (PyFloat.of_int MonthsToKeepSecurities)).

Definition percent_holding : PyFloat.float :=
  PyFloat.round
    (PyFloat.truediv
       (PyFloat.truediv (PyFloat.of_int NumberSecuritiesPerMonth)
                        (PyFloat.of_int NumberSecurtitiesPortfolio))
       (PyFloat.of_int NumberSecuritiesPerMonth))
    3.

(** The attributes [Initialize] creates; [month] is not among them. *)
Definition Initialize : State :=
  {| lastMonth := -1;
     month := None;
     purchased_securities := Dict.empty |}.

(** ** [CoarseFilterFunction] *)
Definition CoarseFilterFunction `{Timsort}
    (env : Env) (coarse : list CoarseFundamental.t)
  : M UniverseSelection :=
  if IsWarmingUp env then ret Unchanged
  else
    assign_month (Time_month env) ;;;
    m <- read_month ;;
    last <- gets lastMonth ;;
    if m =? last then ret Unchanged
    else
      assign_lastMonth m ;;;
      let filtered := filter CoarseFundamental.HasFundamentalData coarse in
      let dollar_sorted := sorted CoarseFundamental.DollarVolume true filtered in
      ret (Selected (map CoarseFundamental.Symbol dollar_sorted)).

(** ** [FineFundamentalFunction] *)
Module Fine.
Module F := FineFundamental.

Definition market_cap_ok (x : F.t) : bool := Qgtb (F.MarketCap x) 50000000.

Definition us_listed (x : F.t) : bool :=
    String.eqb (F.CountryId (F.CompanyReference x)) "USA"
    && (String.eqb (F.PrimaryExchangeID (F.CompanyReference x)) "NYS"
        || String.eqb (F.PrimaryExchangeID (F.CompanyReference x)) "NAS").

Definition industrial (x : F.t) : bool :=
    negb (F.MorningstarSectorCode (F.AssetClassification x)
          =? MorningstarSectorCode.Utilities)
    && negb (F.MorningstarSectorCode (F.AssetClassification x)
             =? MorningstarSectorCode.FinancialServices).

Definition ROA (x : F.t) : Q := F.ForwardROA (F.ValuationRatios x).

(** The EV/EBITDA of a snapshot that has one. *)
Definition EV (x : F.t) : Q := value (F.EVToEBITDA (F.ValuationRatios x)).

Definition roa_ok (x : F.t) : bool := Qgtb (ROA x) (1 # 4).

Definition filtered_ROA (fine : list F.t) : list F.t :=
    let filtered_marketcap := filter market_cap_ok fine in
    let filtered_us := filter us_listed filtered_marketcap in
    let filtered_indu := filter industrial filtered_us in
    filter roa_ok filtered_indu.

Definition sorted_EVToEBITDA `{Timsort} (fine : list F.t) : list F.t :=
    sorted (fun x => F.EVToEBITDA (F.ValuationRatios x)) true
           (filtered_ROA fine).

Definition sorted_ROA `{Timsort} (fine : list F.t) : list F.t :=
    sorted (fun x => Num (ROA x)) false (sorted_EVToEBITDA fine).

(** [f.Symbol not in self.purchased_securities] *)
Definition not_held (st : State) (f : F.t) : bool :=
    negb (Dict.contains (F.Symbol f) (purchased_securities st)).
End Fine.

Definition FineFundamentalFunction `{Timsort}
    (st : State) (fine : list FineFundamental.t)
  : list Symbol :=
  let not_holding :=
    map FineFundamental.Symbol
        (filter (Fine.not_held st) (Fine.sorted_ROA fine)) in
  let final_list := slice_to NumberSecuritiesPerMonth not_holding in
  final_list.

(** ** [sell_securities]

    The first loop walks the ledger in its order, liquidates every entry
    stored under [month] and collects its key; the second loop pops the
    collected keys.  (The loop over the host's portfolio before them only
    computes a value for the debug log.) *)
Fixpoint sell_scan (items : list (Symbol * Z)) (month : Z)
                   (to_pop : list Symbol) : M (list Symbol) :=
  match items with
  | [] => ret to_pop
  | (key, value) :: rest =>
      if value =? month
      then emit (Liquidate key) ;;; sell_scan rest month (to_pop ++ [key])
      else sell_scan rest month to_pop
  end.

Definition sell_securities (month : Z) : M unit :=
  ledger <- gets purchased_securities ;;
  to_pop <- sell_scan (Dict.items ledger) month [] ;;
  for_each to_pop ledger_pop.

(** ** [OnSecuritiesChanged] *)
Definition OnSecuritiesChanged (env : Env) (changes : SecurityChanges)
  : M unit :=
  m <- read_month ;;
  sell_securities m ;;;
  for_each (AddedSecurities changes)
    (fun security =>
       emit (SetHoldings (Security.Symbol security) percent_holding false) ;;;
       ledger_store (Security.Symbol security) (Time_month env)).

(* ================================================================== *)
(** * The host's driving loop

    The host is not part of the repository.  Its daily step is embedded as
    the specification describes the data flow: the coarse filter runs on
    the day's snapshots; unless it answers "unchanged" the fine ranker runs,
    and the securities-changed handler receives the ranker's symbols as the
    added securities. *)

Record Tick := {
  tick_env : Env;
  tick_coarse : list CoarseFundamental.t;
  tick_fine : list FineFundamental.t
}.

Definition tick `{Timsort} (tk : Tick) : M unit :=
  selection <- CoarseFilterFunction (tick_env tk) (tick_coarse tk) ;;
  match selection with
  | Unchanged => ret tt
  | Selected _ =>
      added <- gets (fun st => FineFundamentalFunction st (tick_fine tk)) ;;
      OnSecuritiesChanged (tick_env tk)
        {| AddedSecurities := map Security.Build_t added;
           RemovedSecurities := [] |}
  end.

Definition run_ticks `{Timsort} (tks : list Tick) : M unit :=
  for_each tks tick.

(** The same run, keeping for every tick the state it leaves and the
    actions it performed. *)
Fixpoint trace_ticks `{Timsort} (tks : list Tick) (st : State)
  : option (list (State * list Action)) :=
  match tks with
  | [] => Some []
  | tk :: rest =>
      match tick tk st with
      | Raise _ => None
      | Ok _ st' log =>
          match trace_ticks rest st' with
          | Some tr => Some ((st', log) :: tr)
          | None => None
          end
      end
  end.

(** [Time.month] of the calendar month number [t] (months counted from a
    January). *)
Definition month_of (t : Z) : Z := t mod 12 + 1.

(** One cycle per calendar month from month [t] on, after the warm-up. *)
Fixpoint monthly_ticks (t : Z)
    (inputs : list (list CoarseFundamental.t * list FineFundamental.t))
  : list Tick :=
  match inputs with
  | [] => []
  | (coarse, fine) :: rest =>
      {| tick_env := {| IsWarmingUp := false; Time_month := month_of t |};
         tick_coarse := coarse;
         tick_fine := fine |} :: monthly_ticks (t + 1) rest
  end.

(** Any sequence of calls of the three methods the host knows. *)
Inductive Call :=
| CallCoarse (env : Env) (coarse : list CoarseFundamental.t)
| CallFine (fine : list FineFundamental.t)
| CallChanged (env : Env) (changes : SecurityChanges).

Definition call `{Timsort} (c : Call) : M unit :=
  match c with
  | CallCoarse env coarse => CoarseFilterFunction env coarse ;;; ret tt
  | CallFine fine =>
      gets (fun st => FineFundamentalFunction st fine) ;;; ret tt
  | CallChanged env changes => OnSecuritiesChanged env changes
  end.

Definition run_calls `{Timsort} (cs : list Call) : M unit :=
  for_each cs call.

(** A coarse-filter call made after the warm-up. *)
Definition active_coarse (c : Call) : Prop :=
  match c with
  | CallCoarse env _ => IsWarmingUp env = false
  | _ => False
  end.

(* ================================================================== *)
(** * The notions of the specification *)

(** ** Stable sorting, as the specification words it

    [l'] is [l] sorted by [key] (descending when [reverse]) and elements of
    equal key are in the order they have in [l]. *)
Section StableSort.
Context {A : Type}.
Variable key : A -> Q.
Variable reverse : bool.

Definition in_order (a b : A) : Prop :=
    if reverse then (key b <= key a)%Q else (key a <= key b)%Q.

Definition stable_sort_of (l l' : list A) : Prop :=
    Permutation l l'
    /\ StronglySorted in_order l'
    /\ forall q : Q,
         filter (fun x => Qeq_bool (key x) q) l'
         = filter (fun x => Qeq_bool (key x) q) l.
End StableSort.

(** The snapshot has an EV/EBITDA, and the snapshot has a dollar volume:
    the float is not NaN. *)
Definition has_EV (x : FineFundamental.t) : Prop :=
  FineFundamental.EVToEBITDA (FineFundamental.ValuationRatios x) <> NaN.

Definition has_volume (x : CoarseFundamental.t) : Prop :=
  CoarseFundamental.DollarVolume x <> NaN.

(** The order the two sorting passes of the fine ranker produce together:
    forward ROA ascending, and EV/EBITDA descending among equal ROA. *)
Definition roa_then_ev (a b : FineFundamental.t) : Prop :=
  (Fine.ROA a < Fine.ROA b)%Q
  \/ (Fine.ROA a == Fine.ROA b /\ Fine.EV b <= Fine.EV a)%Q.

(** ** Intents *)

Definition is_sell_action (a : Action) : Prop :=
  match a with
  | Liquidate _ | LedgerPop _ => True
  | _ => False
  end.

Definition is_buy_action (a : Action) : Prop :=
  match a with
  | SetHoldings _ _ _ | LedgerStore _ _ => True
  | _ => False
  end.

(** [s] has been acquired and not liquidated since. *)
Definition open_position (log : list Action) (s : Symbol) : Prop :=
  exists before after w b,
    log = before ++ SetHoldings s w b :: after
    /\ ~ In (Liquidate s) after.

(** The same, computed: the symbols left open by a log of actions. *)
Definition apply_intent (held : list Symbol) (a : Action) : list Symbol :=
  match a with
  | SetHoldings s _ _ => s :: held
  | Liquidate s => filter (fun k => negb (String.eqb s k)) held
  | _ => held
  end.

Definition open_positions (log : list Action) : list Symbol :=
  fold_left apply_intent log [].

(** Replacing the ledger of a state. *)
Definition with_ledger (d : Dict.dict Z) (st : State) : State :=
  {| lastMonth := lastMonth st;
     month := month st;
     purchased_securities := d |}.

(** ** Closed forms of the handler's effects

    What [sell_securities] and the buying loop of [OnSecuritiesChanged] do
    to a ledger and send to the host, written as list functions; the facts
    below show that the methods compute them. *)

Definition due (m : Z) (kv : Symbol * Z) : bool := snd kv =? m.

Definition kept (m : Z) (kv : Symbol * Z) : bool := negb (snd kv =? m).

Definition sell_keys (m : Z) (d : Dict.dict Z) : list Symbol :=
  Dict.keys (filter (due m) d).

Definition sell_log (m : Z) (d : Dict.dict Z) : list Action :=
  map Liquidate (sell_keys m d) ++ map LedgerPop (sell_keys m d).

Definition buy_ledger (tm : Z) (added : list Security.t) (d : Dict.dict Z)
  : Dict.dict Z :=
  fold_left (fun d a => Dict.setitem (Security.Symbol a) tm d) added d.

Definition buy_log (tm : Z) (added : list Security.t) : list Action :=
  flat_map (fun a => [SetHoldings (Security.Symbol a) percent_holding false;
                      LedgerStore (Security.Symbol a) tm]) added.

(** The securities a tick hands to the handler. *)
Definition tick_added `{Timsort} (tk : Tick) (st : State) : list Security.t :=
  map Security.Build_t (FineFundamentalFunction st (tick_fine tk)).

(* ================================================================== *)
(** * A worked scenario

    Five snapshots of United States technology companies listed on the
    NYSE; C is under the market-capitalization floor.  E and B share a
    forward ROA of one third. *)

Definition example_snapshot (s : Symbol) (cap roa ev : Q) : FineFundamental.t :=
  {| FineFundamental.Symbol := s;
     FineFundamental.MarketCap := cap;
     FineFundamental.CompanyReference :=
       {| FineFundamental.CountryId := "USA";
          FineFundamental.PrimaryExchangeID := "NYS" |};
     FineFundamental.AssetClassification :=
       {| FineFundamental.MorningstarSectorCode := 311 |};
     FineFundamental.ValuationRatios :=
       {| FineFundamental.ForwardROA := roa;
          FineFundamental.EVToEBITDA := Num ev |} |}.

Definition example_small_cap : FineFundamental.t :=
  example_snapshot "C" 40000000 (1 # 2) 9.

Definition example_fine : list FineFundamental.t :=
  [ example_snapshot "A" 60000000 (1 # 2) 5;
    example_snapshot "B" 60000000 (1 # 3) 7;
    example_small_cap;
    example_snapshot "D" 70000000 (1 # 2) 8;
    example_snapshot "E" 70000000 (2 # 6) 9 ].

Definition example_coarse : list CoarseFundamental.t :=
  map (fun x => {| CoarseFundamental.Symbol := FineFundamental.Symbol x;
                   CoarseFundamental.HasFundamentalData := true;
                   CoarseFundamental.DollarVolume :=
                     Num (FineFundamental.MarketCap x) |})
      example_fine.

(** Thirteen months of the same snapshots. *)
Definition example_inputs
  : list (list CoarseFundamental.t * list FineFundamental.t) :=
  repeat (example_coarse, example_fine) 13.

Definition example_warm_up : Env :=
  {| IsWarmingUp := true; Time_month := 3 |}.

Definition example_env : Env :=
  {| IsWarmingUp := false; Time_month := 1 |}.

(** A January with E and B bought the January before and D in February. *)
Definition example_state : State :=
  {| lastMonth := 1;
     month := Some 1;
     purchased_securities := [("E", 1); ("B", 1); ("D", 2)]%string |}.

Definition example_changes : SecurityChanges :=
  {| AddedSecurities := [Security.Build_t "X"];
     RemovedSecurities := [] |}.

Definition example_calls : list Call :=
  [ CallCoarse example_warm_up example_coarse;
    CallCoarse example_env example_coarse;
    CallFine example_fine ].

(* ================================================================== *)
(** * Notions for the further properties *)

(** The symbols of the acquisition intents of a log, in order. *)
Definition acquisitions (log : list Action) : list Symbol :=
  flat_map (fun a => match a with SetHoldings s _ _ => [s] | _ => [] end) log.

(** The symbols of the liquidation intents of a log, in order. *)
Definition liquidations (log : list Action) : list Symbol :=
  flat_map (fun a => match a with Liquidate s => [s] | _ => [] end) log.

(** Every liquidation intent of [log] is for a position that is open when
    the intent is sent, [held] being the positions open before [log]. *)
Fixpoint liquidates_open (held : list Symbol) (log : list Action) : Prop :=
  match log with
  | [] => True
  | a :: rest =>
      match a with Liquidate s => In s held | _ => True end
      /\ liquidates_open (apply_intent held a) rest
  end.

(** Number of ledger entries stored under the month [v]. *)
Definition entries_of_month (v : Z) (d : Dict.dict Z) : nat :=
  List.length (filter (due v) d).

(** The host's clock shows a month of the calendar. *)
Definition calendar_month (tk : Tick) : Prop :=
  1 <= Time_month (tick_env tk) <= 12.

Definition warming_up (tk : Tick) : Prop :=
  IsWarmingUp (tick_env tk) = true.

Definition calendar_months : list Z := [1; 2; 3; 4; 5; 6; 7; 8; 9; 10; 11; 12].

(** What every daily step keeps: no repeated key, at most the quota of
    entries per month, months of the calendar only. *)
Definition ledger_within_slots (d : Dict.dict Z) : Prop :=
  Dict.wf d
  /\ (forall v, (entries_of_month v d <= 2)%nat)
  /\ (forall k v, In (k, v) d -> 1 <= v <= 12).

(** Two more snapshots for the scenario: a utility and a company listed
    abroad, both otherwise attractive. *)
Definition example_utility : FineFundamental.t :=
  {| FineFundamental.Symbol := "U";
     FineFundamental.MarketCap := 90000000;
     FineFundamental.CompanyReference :=
       {| FineFundamental.CountryId := "USA";
          FineFundamental.PrimaryExchangeID := "NAS" |};
     FineFundamental.AssetClassification :=
       {| FineFundamental.MorningstarSectorCode :=
            MorningstarSectorCode.Utilities |};
     FineFundamental.ValuationRatios :=
       {| FineFundamental.ForwardROA := 3 # 10;
          FineFundamental.EVToEBITDA := Num 4 |} |}.

Definition example_foreign : FineFundamental.t :=
  {| FineFundamental.Symbol := "F";
     FineFundamental.MarketCap := 90000000;
     FineFundamental.CompanyReference :=
       {| FineFundamental.CountryId := "CAN";
          FineFundamental.PrimaryExchangeID := "NYS" |};
     FineFundamental.AssetClassification :=
       {| FineFundamental.MorningstarSectorCode := 311 |};
     FineFundamental.ValuationRatios :=
       {| FineFundamental.ForwardROA := 3 # 10;
          FineFundamental.EVToEBITDA := Num 4 |} |}.

(** Three candidates of equal forward ROA; the second has no EV/EBITDA. *)
Definition example_missing_EV : FineFundamental.t :=
  {| FineFundamental.Symbol := "N";
     FineFundamental.MarketCap := 60000000;
     FineFundamental.CompanyReference :=
       {| FineFundamental.CountryId := "USA";
          FineFundamental.PrimaryExchangeID := "NYS" |};
     FineFundamental.AssetClassification :=
       {| FineFundamental.MorningstarSectorCode := 311 |};
     FineFundamental.ValuationRatios :=
       {| FineFundamental.ForwardROA := 1 # 2;
          FineFundamental.EVToEBITDA := NaN |} |}.

Definition example_fine_nan : list FineFundamental.t :=
  [ example_snapshot "A" 60000000 (1 # 2) 5;
    example_missing_EV;
    example_snapshot "B" 60000000 (1 # 2) 7 ].

(** A sort that leaves alone what it cannot order. *)
Definition example_timsort : Timsort :=
  {| unordered_sort := fun _ _ _ l => l;
     unordered_sort_perm := fun _ _ _ l => Permutation_refl l |}.

Definition example_tick (env : Env) : Tick :=
  {| tick_env := env;
     tick_coarse := example_coarse;
     tick_fine := example_fine |}.

(** A month in which only A and B pass the screens. *)
Definition example_fine_few : list FineFundamental.t :=
  example_utility :: example_foreign :: firstn 3 example_fine.

Definition example_february : Env :=
  {| IsWarmingUp := false; Time_month := 2 |}.

(* ================================================================== *)
(** * Facts about the built-ins *)

(** Everything below holds whatever CPython's sort does with the lists it
    cannot order. *)
Section Properties.
Context `{TS : Timsort}.

Lemma Qltb_lt (x y : Q) : Qltb x y = true <-> (x < y)%Q.
Proof.
  unfold Qltb. rewrite Qlt_alt.
  destruct (x ?= y)%Q; split; congruence.
Qed.

Lemma Qltb_ge (x y : Q) : Qltb x y = false <-> (y <= x)%Q.
Proof.
  split; intro H.
  - apply Qnot_lt_le. intro Hlt. apply Qltb_lt in Hlt. congruence.
  - destruct (Qltb x y) eqn:E; [|reflexivity].
    apply Qltb_lt in E. lra.
Qed.

Lemma slice_to_length {A} (n : Z) (l : list A) :
  0 <= n -> (List.length (slice_to n l) <= Z.to_nat n)%nat.
Proof.
  intro Hn. unfold slice_to.
  destruct (n <? 0) eqn:E; [apply Z.ltb_lt in E; lia|].
  rewrite length_firstn. lia.
Qed.

Lemma firstn_incl {A} (n : nat) (l : list A) (x : A) :
  In x (firstn n l) -> In x l.
Proof.
  intro H. rewrite <- (firstn_skipn n l). apply in_or_app. now left.
Qed.

Lemma slice_to_In {A} (n : Z) (l : list A) (x : A) :
  In x (slice_to n l) -> In x l.
Proof.
  unfold slice_to. destruct (n <? 0); apply firstn_incl.
Qed.

Lemma slice_to_nonneg {A} (n : Z) (l : list A) :
  0 <= n -> slice_to n l = firstn (Z.to_nat n) l.
Proof.
  intro Hn. unfold slice_to.
  destruct (n <? 0) eqn:E; [apply Z.ltb_lt in E; lia|reflexivity].
Qed.

(** ** Sorting *)
Section SortedFacts.
Context {A : Type}.
Variable key : A -> Q.
Variable reverse : bool.

Local Abbreviation ins := (insert_sorted key reverse).
Local Abbreviation ord := (in_order key reverse).
Local Abbreviation same q := (fun x : A => Qeq_bool (key x) q).

Lemma precedes_false (a b : A) :
    precedes key reverse b a = false <-> ord a b.
Proof.
    unfold precedes, in_order. destruct reverse; apply Qltb_ge.
Qed.

Lemma precedes_true (a b : A) :
    precedes key reverse a b = true -> ord a b /\ ~ (key a == key b)%Q.
Proof.
    unfold precedes, in_order.
    destruct reverse; rewrite Qltb_lt; intro H; split; lra.
Qed.

Lemma in_order_trans (a b c : A) : ord a b -> ord b c -> ord a c.
Proof. unfold in_order. destruct reverse; intros; lra. Qed.

Lemma in_order_antisym (a b : A) : ord a b -> ord b a -> (key a == key b)%Q.
Proof. unfold in_order. destruct reverse; intros; lra. Qed.

Lemma insert_sorted_perm (x : A) (l : list A) :
    Permutation (x :: l) (ins x l).
Proof.
    induction l as [|y l IH]; simpl; [reflexivity|].
    destruct (precedes key reverse y x); [|reflexivity].
    rewrite perm_swap. now apply perm_skip.
Qed.

Lemma stable_sorted_perm (l : list A) :
    Permutation l (stable_sorted key reverse l).
Proof.
    induction l as [|x l IH]; simpl; [constructor|].
    rewrite <- insert_sorted_perm. now apply perm_skip.
Qed.

Lemma stable_sorted_In (l : list A) (x : A) :
    In x (stable_sorted key reverse l) <-> In x l.
Proof.
    split; apply Permutation_in;
      [symmetry|]; apply stable_sorted_perm.
Qed.

Lemma insert_sorted_sorted (x : A) (l : list A) :
    StronglySorted ord l -> StronglySorted ord (ins x l).
Proof.
    induction 1 as [|y l Hl IH Hy]; simpl.
    - repeat constructor.
    - destruct (precedes key reverse y x) eqn:E.
      + constructor; [exact IH|].
        apply precedes_true in E as [E _].
        rewrite Forall_forall in *. intros z Hz.
        apply (Permutation_in _ (Permutation_sym (insert_sorted_perm x l))) in Hz.
        destruct Hz as [<-|Hz]; auto.
      + apply precedes_false in E.
        constructor; [now constructor|].
        constructor; [exact E|].
        rewrite Forall_forall in *. intros z Hz.
        eapply in_order_trans; eauto.
Qed.

Lemma stable_sorted_sorted (l : list A) :
    StronglySorted ord (stable_sorted key reverse l).
Proof.
    induction l as [|x l IH]; simpl; [constructor|].
    now apply insert_sorted_sorted.
Qed.

(** Insertion never moves an element past one of equal key. *)
Lemma insert_sorted_filter (q : Q) (x : A) (l : list A) :
    filter (same q) (ins x l) = filter (same q) (x :: l).
Proof.
    induction l as [|y l IH]; [reflexivity|].
    cbn [insert_sorted].
    destruct (precedes key reverse y x) eqn:E; [|reflexivity].
    apply precedes_true in E as [_ E].
    cbn [filter] in *. rewrite IH.
    destruct (Qeq_bool (key x) q) eqn:Ex, (Qeq_bool (key y) q) eqn:Ey;
      try reflexivity.
    apply Qeq_bool_iff in Ex, Ey. exfalso. apply E. lra.
Qed.

Lemma stable_sorted_filter (q : Q) (l : list A) :
    filter (same q) (stable_sorted key reverse l) = filter (same q) l.
Proof.
    induction l as [|x l IH]; [reflexivity|].
    cbn [stable_sorted fold_right]. rewrite insert_sorted_filter.
    cbn [filter]. fold (stable_sorted key reverse l). now rewrite IH.
Qed.

(** Stable insertion is a stable sort in the sense of the specification. *)
Lemma stable_sorted_stable (l : list A) :
    stable_sort_of key reverse l (stable_sorted key reverse l).
Proof.
    split; [apply stable_sorted_perm|].
    split; [apply stable_sorted_sorted|].
    intro q. apply stable_sorted_filter.
Qed.

(** Two sorted lists with the same elements of every key, in the same
    order, are the same list. *)
Lemma sorted_classes_eq (l1 l2 : list A) :
    StronglySorted ord l1 -> StronglySorted ord l2 ->
    (forall q, filter (same q) l1 = filter (same q) l2) ->
    l1 = l2.
Proof.
    intros H1. revert l2.
    induction H1 as [|x l1 Hl1 IH Hx]; intros l2 H2 Hf.
    - destruct l2 as [|y l2]; [reflexivity|].
      specialize (Hf (key y)). cbn [filter] in Hf.
      rewrite (proj2 (Qeq_bool_iff _ _) (Qeq_refl (key y))) in Hf.
      discriminate.
    - destruct H2 as [|y l2 Hl2 Hy].
      + specialize (Hf (key x)). cbn [filter] in Hf.
        rewrite (proj2 (Qeq_bool_iff _ _) (Qeq_refl (key x))) in Hf.
        discriminate.
      + assert (Hxy : (key y == key x)%Q).
        { assert (In x (y :: l2)) as [->|Hin].
          { pose proof (Hf (key x)) as Hq.
            apply (filter_In (same (key x)) x (y :: l2)).
            rewrite <- Hq. cbn [filter].
            rewrite (proj2 (Qeq_bool_iff _ _) (Qeq_refl (key x))).
            now left. }
          { reflexivity. }
          assert (In y (x :: l1)) as [->|Hin'].
          { pose proof (Hf (key y)) as Hq.
            apply (filter_In (same (key y)) y (x :: l1)).
            rewrite Hq. cbn [filter].
            rewrite (proj2 (Qeq_bool_iff _ _) (Qeq_refl (key y))).
            now left. }
          { reflexivity. }
          rewrite Forall_forall in Hx, Hy.
          apply in_order_antisym; auto. }
        assert (x = y) as <-.
        { pose proof (Hf (key x)) as Hq. cbn [filter] in Hq.
          rewrite (proj2 (Qeq_bool_iff _ _) (Qeq_refl (key x))) in Hq.
          rewrite (proj2 (Qeq_bool_iff _ _) Hxy) in Hq.
          now injection Hq. }
        f_equal. apply IH; [exact Hl2|].
        intro q. specialize (Hf q). cbn [filter] in Hf.
        destruct (Qeq_bool (key x) q); [now injection Hf|exact Hf].
Qed.

(** So the result of a stable sort does not depend on the algorithm. *)
Lemma stable_sort_unique (l l1 l2 : list A) :
    stable_sort_of key reverse l l1 ->
    stable_sort_of key reverse l l2 ->
    l1 = l2.
Proof.
    intros (_ & S1 & F1) (_ & S2 & F2).
    apply sorted_classes_eq; auto.
    intro q. now rewrite F1, F2.
Qed.

(** Order inside a key class is order in the whole list. *)
Lemma sorted_refine (R : A -> A -> Prop) (l : list A) :
    StronglySorted ord l ->
    (forall q, StronglySorted R (filter (same q) l)) ->
    StronglySorted
      (fun a b => (ord a b /\ ~ (key a == key b)%Q)
                  \/ ((key a == key b)%Q /\ R a b)) l.
Proof.
    induction 1 as [|x l Hl IH Hx]; intro HR; [constructor|].
    constructor.
    - apply IH. intro q. specialize (HR q). cbn [filter] in HR.
      destruct (Qeq_bool (key x) q); [now inversion HR|exact HR].
    - specialize (HR (key x)). cbn [filter] in HR.
      rewrite (proj2 (Qeq_bool_iff _ _) (Qeq_refl (key x))) in HR.
      apply StronglySorted_inv in HR as [_ HR].
      rewrite Forall_forall in *. intros y Hy.
      destruct (Qeq_bool (key y) (key x)) eqn:E.
      + right. apply Qeq_bool_iff in E. split; [lra|].
        apply HR. apply filter_In. split; [exact Hy|].
        now apply Qeq_bool_iff.
      + left. split; [auto|]. intro Heq.
        apply Qeq_bool_neq in E. apply E. lra.
Qed.

Lemma StronglySorted_filter (R : A -> A -> Prop) (f : A -> bool) (l : list A) :
    StronglySorted R l -> StronglySorted R (filter f l).
Proof.
    induction 1 as [|x l Hl IH Hx]; cbn [filter]; [constructor|].
    destruct (f x); [|exact IH].
    constructor; [exact IH|].
    rewrite Forall_forall in *. intros y Hy.
    apply filter_In in Hy as [Hy _]. auto.
Qed.

Lemma StronglySorted_firstn (R : A -> A -> Prop) (n : nat) (l : list A) :
    StronglySorted R l -> StronglySorted R (firstn n l).
Proof.
    intro H. revert n.
    induction H as [|x l Hl IH Hx]; intros [|n]; cbn [firstn];
      try constructor; [apply IH|].
    rewrite Forall_forall in *. intros y Hy. apply Hx.
    now apply firstn_incl in Hy.
Qed.
End SortedFacts.

(** ** Python's [sorted] *)
Section PySortedFacts.
Context {A : Type}.
Variable key : A -> number.
Variable reverse : bool.

Lemma no_nan_existsb (l : list A) :
    Forall (fun x => key x <> NaN) l ->
    existsb (fun x => is_nan (key x)) l = false.
Proof.
  induction 1 as [|x l Hx _ IH]; cbn [existsb]; [reflexivity|].
  rewrite IH. destruct (key x); [reflexivity|contradiction].
Qed.

(** On keys that are all numbers [sorted] is the stable sort. *)
Lemma sorted_numbers (l : list A) :
    Forall (fun x => key x <> NaN) l ->
    sorted key reverse l = stable_sorted (fun x => value (key x)) reverse l.
Proof. intro H. unfold sorted. now rewrite no_nan_existsb. Qed.

Lemma sorted_perm (l : list A) : Permutation l (sorted key reverse l).
Proof.
  unfold sorted. destruct (existsb _ l).
  - destruct (already_in_order key reverse l);
      [reflexivity|apply unordered_sort_perm].
  - apply stable_sorted_perm.
Qed.

Lemma sorted_In (l : list A) (x : A) :
    In x (sorted key reverse l) <-> In x l.
Proof.
  split; apply Permutation_in; [symmetry|]; apply sorted_perm.
Qed.
End PySortedFacts.

(** ** Dictionaries *)
Section DictFacts.
Context {V : Type}.
Implicit Types (d : Dict.dict V) (k s : Symbol).

Lemma get_None_iff k d : Dict.get k d = None <-> ~ In k (Dict.keys d).
Proof.
  induction d as [|[k' v] d IH]; cbn [Dict.get Dict.keys map fst].
  - tauto.
  - destruct (String.eqb_spec k k') as [->|Hne].
    + split; [discriminate|]. intro H. exfalso. apply H. now left.
    + rewrite IH. unfold Dict.keys. split.
      * intros H [E|E]; [congruence|tauto].
      * intros H E. apply H. now right.
Qed.

Lemma contains_false_iff k d :
  Dict.contains k d = false <-> ~ In k (Dict.keys d).
Proof.
  rewrite <- get_None_iff. unfold Dict.contains.
  destruct (Dict.get k d); split; congruence.
Qed.

Lemma contains_true_iff k d :
  Dict.contains k d = true <-> In k (Dict.keys d).
Proof.
  destruct (Dict.contains k d) eqn:E.
  - split; [intros _|reflexivity].
    destruct (in_dec string_dec k (Dict.keys d)) as [H|H]; [exact H|].
    apply contains_false_iff in H. congruence.
  - apply contains_false_iff in E. split; [discriminate|tauto].
Qed.

Lemma get_Some_In k v d : Dict.get k d = Some v -> In (k, v) d.
Proof.
  induction d as [|[k' v'] d IH]; cbn [Dict.get]; [discriminate|].
  destruct (String.eqb_spec k k') as [->|Hne].
  - intros [= ->]. now left.
  - intro H. right. auto.
Qed.

Lemma get_Some_keys k v d : Dict.get k d = Some v -> In k (Dict.keys d).
Proof.
  intro H. apply get_Some_In in H.
  apply (in_map fst) in H. exact H.
Qed.

Lemma keys_filter_incl (f : Symbol * V -> bool) d k :
  In k (Dict.keys (filter f d)) -> In k (Dict.keys d).
Proof.
  unfold Dict.keys. rewrite !in_map_iff.
  intros (kv & E & H). apply filter_In in H as [H _]. eauto.
Qed.

Lemma wf_filter (f : Symbol * V -> bool) d :
  Dict.wf d -> Dict.wf (filter f d).
Proof.
  unfold Dict.wf.
  induction d as [|[k v] d IH]; cbn [filter Dict.keys map fst]; [auto|].
  intro H. apply NoDup_cons_iff in H as [Hk Hd].
  destruct (f (k, v)); [|now apply IH].
  cbn [map fst]. constructor; [|now apply IH].
  intro Hin. apply Hk. eapply keys_filter_incl. exact Hin.
Qed.

Lemma keys_setitem k v d s :
  In s (Dict.keys (Dict.setitem k v d)) <-> s = k \/ In s (Dict.keys d).
Proof.
  induction d as [|[k' v'] d IH]; cbn [Dict.setitem Dict.keys map fst In].
  - intuition congruence.
  - destruct (String.eqb_spec k k') as [->|Hne]; cbn [map fst In].
    + intuition congruence.
    + unfold Dict.keys in IH. rewrite IH. intuition congruence.
Qed.

Lemma wf_setitem k v d : Dict.wf d -> Dict.wf (Dict.setitem k v d).
Proof.
  unfold Dict.wf.
  induction d as [|[k' v'] d IH]; cbn [Dict.setitem Dict.keys map fst].
  - intros _. repeat constructor. intros [].
  - intro H. apply NoDup_cons_iff in H as [Hk Hd].
    destruct (String.eqb_spec k k') as [->|Hne]; cbn [map fst].
    + now constructor.
    + constructor; [|now apply IH].
      intro Hin. apply (keys_setitem k v d k') in Hin as [E|Hin];
        [congruence|]. now apply Hk.
Qed.

Lemma get_setitem k v d s :
  Dict.get s (Dict.setitem k v d)
  = if String.eqb s k then Some v else Dict.get s d.
Proof.
  induction d as [|[k' v'] d IH]; cbn [Dict.setitem Dict.get].
  - destruct (String.eqb s k); reflexivity.
  - destruct (String.eqb_spec k k') as [->|Hne]; cbn [Dict.get].
    + destruct (String.eqb s k'); reflexivity.
    + rewrite IH.
      destruct (String.eqb_spec s k') as [->|Hne'];
        [|reflexivity].
      destruct (String.eqb_spec k' k); [congruence|reflexivity].
Qed.

(** Popping the key of an entry that no earlier entry shares removes that
    entry. *)
Lemma pop_middle k v (pre post : Dict.dict V) :
  ~ In k (Dict.keys pre) ->
  Dict.pop k (pre ++ (k, v) :: post) = Some (v, pre ++ post).
Proof.
  induction pre as [|[k' v'] pre IH]; cbn [Dict.pop app Dict.keys map fst].
  - intros _. now rewrite String.eqb_refl.
  - intro H. destruct (String.eqb_spec k k') as [->|Hne].
    + exfalso. apply H. now left.
    + unfold Dict.keys in IH. rewrite IH; [reflexivity|].
      intro Hin. apply H. now right.
Qed.
End DictFacts.

Lemma get_filter_kept (m : Z) (d : Dict.dict Z) (s : Symbol) :
  Dict.wf d ->
  Dict.get s (filter (kept m) d)
  = match Dict.get s d with
    | Some v => if v =? m then None else Some v
    | None => None
    end.
Proof.
  unfold Dict.wf.
  induction d as [|[k v] d IH]; cbn [filter Dict.get Dict.keys map fst];
    [reflexivity|].
  intro H. apply NoDup_cons_iff in H as [Hk Hd].
  unfold kept at 1. cbn [snd].
  destruct (String.eqb_spec s k) as [->|Hne].
  - destruct (v =? m) eqn:E; cbn [negb Dict.get].
    + apply get_None_iff. intro Hin. apply Hk.
      eapply keys_filter_incl. exact Hin.
    + now rewrite String.eqb_refl.
  - destruct (v =? m); cbn [negb Dict.get].
    + now apply IH.
    + destruct (String.eqb_spec s k); [congruence|]. now apply IH.
Qed.

Lemma sell_keys_In (m : Z) (d : Dict.dict Z) (s : Symbol) :
  Dict.wf d ->
  In s (sell_keys m d) <-> Dict.get s d = Some m.
Proof.
  unfold Dict.wf, sell_keys.
  induction d as [|[k v] d IH]; cbn [filter Dict.get Dict.keys map fst].
  - intros _. split; [intros []|discriminate].
  - intro H. apply NoDup_cons_iff in H as [Hk Hd].
    unfold due at 1. cbn [snd].
    destruct (String.eqb_spec s k) as [->|Hne].
    + destruct (Z.eqb_spec v m) as [->|Hvm]; cbn [Dict.keys map fst].
      * split; [reflexivity|]. now left.
      * split; [|congruence]. intro Hin. exfalso. apply Hk.
        eapply keys_filter_incl. exact Hin.
    + destruct (v =? m); cbn [Dict.keys map fst].
      * rewrite <- (IH Hd). unfold Dict.keys. split.
        -- intros [E|Hin]; [congruence|exact Hin].
        -- intro Hin. now right.
      * now apply IH.
Qed.

Lemma get_buy_ledger (tm : Z) (added : list Security.t) (d : Dict.dict Z)
      (s : Symbol) :
  Dict.get s (buy_ledger tm added d)
  = if in_dec string_dec s (map Security.Symbol added)
    then Some tm else Dict.get s d.
Proof.
  revert d. unfold buy_ledger.
  induction added as [|a added IH]; intro d; cbn [fold_left map].
  - reflexivity.
  - rewrite IH.
    destruct (in_dec string_dec s (map Security.Symbol added)) as [Hin|Hnin].
    + destruct (in_dec string_dec s (Security.Symbol a :: map Security.Symbol added))
        as [_|Hn]; [reflexivity|].
      exfalso. apply Hn. now right.
    + rewrite get_setitem.
      destruct (String.eqb_spec s (Security.Symbol a)) as [->|Hne].
      * destruct (in_dec string_dec _ _) as [_|Hn]; [reflexivity|].
        exfalso. apply Hn. now left.
      * destruct (in_dec string_dec _ _) as [[E|Hin]|_];
          [congruence|tauto|reflexivity].
Qed.

Lemma wf_buy_ledger (tm : Z) (added : list Security.t) (d : Dict.dict Z) :
  Dict.wf d -> Dict.wf (buy_ledger tm added d).
Proof.
  revert d. unfold buy_ledger.
  induction added as [|a added IH]; intros d H; cbn [fold_left]; [exact H|].
  apply IH. now apply wf_setitem.
Qed.

(* ================================================================== *)
(** * Facts about the methods *)

(** The configuration [Initialize] computes.  Outside these two facts the
    float arithmetic behind it is never unfolded. *)
Lemma NumberSecuritiesPerMonth_eq : NumberSecuritiesPerMonth = 2.
Proof. vm_compute. reflexivity. Qed.

Lemma percent_holding_eq :
  percent_holding = S754_finite false 6052837899185947 (-57).
Proof. vm_compute. reflexivity. Qed.

Opaque percent_holding NumberSecuritiesPerMonth.

Lemma bind_Ok {A B} (m : M A) (f : A -> M B) st a st1 l1 b st2 l2 :
  m st = Ok a st1 l1 ->
  f a st1 = Ok b st2 l2 ->
  bind m f st = Ok b st2 (l1 ++ l2).
Proof. intros H1 H2. unfold bind. now rewrite H1, H2. Qed.

Lemma bind_inv {A B} (m : M A) (f : A -> M B) st b st2 log :
  bind m f st = Ok b st2 log ->
  exists a st1 l1 l2,
    m st = Ok a st1 l1 /\ f a st1 = Ok b st2 l2 /\ log = l1 ++ l2.
Proof.
  unfold bind. destruct (m st) as [a st1 l1|e]; [|discriminate].
  destruct (f a st1) as [b' st2' l2|e] eqn:E; [|discriminate].
  intros [= -> -> <-]. now exists a, st1, l1, l2.
Qed.

Lemma with_ledger_same (st : State) :
  with_ledger (purchased_securities st) st = st.
Proof. now destruct st. Qed.

(** ** [sell_securities] *)

Lemma sell_scan_spec (items : list (Symbol * Z)) (m : Z)
      (to_pop : list Symbol) (st : State) :
  sell_scan items m to_pop st
  = Ok (to_pop ++ Dict.keys (filter (due m) items)) st
       (map Liquidate (Dict.keys (filter (due m) items))).
Proof.
  revert to_pop.
  induction items as [|[k v] items IH]; intro to_pop;
    cbn [sell_scan filter Dict.keys map fst].
  - unfold ret. now rewrite app_nil_r.
  - change (due m (k, v)) with (v =? m).
    destruct (v =? m); cbn [Dict.keys map fst].
    + unfold bind, emit. rewrite IH. cbn [app].
      now rewrite <- app_assoc.
    + apply IH.
Qed.

Lemma pop_due_spec (m : Z) (st : State) (d pre : Dict.dict Z) :
  Dict.wf (pre ++ d) ->
  for_each (sell_keys m d) ledger_pop (with_ledger (pre ++ d) st)
  = Ok tt (with_ledger (pre ++ filter (kept m) d) st)
       (map LedgerPop (sell_keys m d)).
Proof.
  unfold sell_keys, Dict.wf. revert pre.
  induction d as [|[k v] d IH]; intros pre Hwf;
    cbn [filter Dict.keys map fst for_each].
  - reflexivity.
  - change (due m (k, v)) with (v =? m).
    change (kept m (k, v)) with (negb (v =? m)).
    destruct (v =? m) eqn:E; cbn [negb Dict.keys map fst for_each].
    + unfold Dict.keys in Hwf. rewrite map_app in Hwf. cbn [map fst] in Hwf.
      eapply bind_Ok with (l1 := [LedgerPop k]).
      * unfold ledger_pop. cbn [with_ledger purchased_securities].
        rewrite pop_middle; [reflexivity|].
        apply NoDup_remove_2 in Hwf. intro Hin. apply Hwf.
        apply in_or_app. now left.
      * apply (IH pre). unfold Dict.keys. rewrite map_app.
        now apply NoDup_remove_1 in Hwf.
    + change ((k, v) :: d) with ([(k, v)] ++ d) in Hwf |- *.
      change ((k, v) :: filter (kept m) d)
        with ([(k, v)] ++ filter (kept m) d).
      rewrite !app_assoc in *. now apply IH.
Qed.

Lemma sell_securities_spec (m : Z) (st : State) :
  Dict.wf (purchased_securities st) ->
  sell_securities m st
  = Ok tt (with_ledger (filter (kept m) (purchased_securities st)) st)
       (sell_log m (purchased_securities st)).
Proof.
  intro Hwf. unfold sell_securities, sell_log.
  eapply bind_Ok with (l1 := []); [reflexivity|].
  eapply bind_Ok; [apply sell_scan_spec|].
  pose proof (pop_due_spec m st (purchased_securities st) [] Hwf) as H.
  cbn [app] in H |- *. rewrite with_ledger_same in H. exact H.
Qed.

(** Whatever the ledger, a run of [sell_securities] that returns has sent
    and done nothing but liquidations and removals. *)
Lemma for_each_pop_log (ks : list Symbol) (st st' : State) (log : list Action) :
  for_each ks ledger_pop st = Ok tt st' log -> log = map LedgerPop ks.
Proof.
  revert st log.
  induction ks as [|k ks IH]; intros st log; cbn [for_each map].
  - now intros [= _ <-].
  - intro H. apply bind_inv in H as (a & st1 & l1 & l2 & H1 & H2 & ->).
    apply IH in H2 as ->.
    unfold ledger_pop in H1.
    destruct (Dict.pop k (purchased_securities st)) as [[v d]|];
      [|discriminate].
    now injection H1 as _ _ <-.
Qed.

Lemma sell_securities_log (m : Z) (st st' : State) (log : list Action) :
  sell_securities m st = Ok tt st' log ->
  log = sell_log m (purchased_securities st).
Proof.
  unfold sell_securities. intro H.
  apply bind_inv in H as (d & st1 & l1 & l2 & H1 & H2 & ->).
  injection H1 as <- <- <-.
  apply bind_inv in H2 as (ks & st2 & l3 & l4 & H2 & H3 & ->).
  rewrite sell_scan_spec in H2. injection H2 as <- <- <-.
  apply for_each_pop_log in H3 as ->. reflexivity.
Qed.

Lemma sell_log_sells (m : Z) (d : Dict.dict Z) :
  Forall is_sell_action (sell_log m d).
Proof.
  unfold sell_log. apply Forall_app.
  split; apply Forall_forall; intros a Ha;
    apply in_map_iff in Ha as (k & <- & _); exact I.
Qed.

(** ** The buying loop *)

Lemma buy_loop_spec (tm : Z) (added : list Security.t) (st : State) :
  for_each added
    (fun security =>
       emit (SetHoldings (Security.Symbol security) percent_holding false) ;;;
       ledger_store (Security.Symbol security) tm) st
  = Ok tt (with_ledger (buy_ledger tm added (purchased_securities st)) st)
       (buy_log tm added).
Proof.
  revert st.
  induction added as [|a added IH]; intro st;
    cbn [for_each buy_ledger buy_log fold_left flat_map].
  - unfold ret. now rewrite with_ledger_same.
  - eapply bind_Ok; [reflexivity|]. rewrite IH. reflexivity.
Qed.

Lemma buy_log_buys (tm : Z) (added : list Security.t) :
  Forall is_buy_action (buy_log tm added).
Proof.
  unfold buy_log. apply Forall_forall. intros a Ha.
  apply in_flat_map in Ha as (x & _ & [<-|[<-|[]]]); exact I.
Qed.

Lemma buy_log_SetHoldings (tm : Z) (added : list Security.t) s w b :
  In (SetHoldings s w b) (buy_log tm added)
  <-> In s (map Security.Symbol added) /\ w = percent_holding /\ b = false.
Proof.
  unfold buy_log. rewrite in_flat_map, in_map_iff. split.
  - generalize percent_holding. intros ph (x & Hx & [E|[E|[]]]);
      [|discriminate].
    injection E as <- <- <-. eauto.
  - intros ((x & <- & Hx) & -> & ->). exists x. split; [exact Hx|].
    now left.
Qed.

(** ** [OnSecuritiesChanged] *)

Lemma OnSecuritiesChanged_spec (env : Env) (changes : SecurityChanges)
      (st : State) (m : Z) :
  month st = Some m ->
  Dict.wf (purchased_securities st) ->
  OnSecuritiesChanged env changes st
  = Ok tt
       (with_ledger
          (buy_ledger (Time_month env) (AddedSecurities changes)
                      (filter (kept m) (purchased_securities st))) st)
       (sell_log m (purchased_securities st)
        ++ buy_log (Time_month env) (AddedSecurities changes)).
Proof.
  intros Hm Hwf. unfold OnSecuritiesChanged.
  eapply bind_Ok with (l1 := []).
  { unfold read_month. rewrite Hm. reflexivity. }
  eapply bind_Ok; [now apply sell_securities_spec|].
  rewrite buy_loop_spec. reflexivity.
Qed.

Lemma OnSecuritiesChanged_undefined (env : Env) (changes : SecurityChanges)
      (st : State) :
  month st = None ->
  OnSecuritiesChanged env changes st = Raise (AttributeError "month").
Proof.
  intro Hm. unfold OnSecuritiesChanged, bind, read_month. now rewrite Hm.
Qed.

(** ** [CoarseFilterFunction] *)

Lemma Coarse_warming_up (env : Env) (coarse : list CoarseFundamental.t)
      (st : State) :
  IsWarmingUp env = true ->
  CoarseFilterFunction env coarse st = Ok Unchanged st [].
Proof. intro H. unfold CoarseFilterFunction. now rewrite H. Qed.

Lemma Coarse_same_month (env : Env) (coarse : list CoarseFundamental.t)
      (st : State) :
  IsWarmingUp env = false ->
  Time_month env = lastMonth st ->
  CoarseFilterFunction env coarse st
  = Ok Unchanged
       {| lastMonth := lastMonth st;
          month := Some (Time_month env);
          purchased_securities := purchased_securities st |} [].
Proof.
  intros Hw Hm. unfold CoarseFilterFunction. rewrite Hw.
  unfold bind, assign_month, read_month, gets. cbn.
  rewrite Hm, Z.eqb_refl. reflexivity.
Qed.

Lemma Coarse_new_month (env : Env) (coarse : list CoarseFundamental.t)
      (st : State) :
  IsWarmingUp env = false ->
  Time_month env <> lastMonth st ->
  CoarseFilterFunction env coarse st
  = Ok (Selected
          (map CoarseFundamental.Symbol
               (sorted CoarseFundamental.DollarVolume true
                       (filter CoarseFundamental.HasFundamentalData coarse))))
       {| lastMonth := Time_month env;
          month := Some (Time_month env);
          purchased_securities := purchased_securities st |} [].
Proof.
  intros Hw Hm. unfold CoarseFilterFunction. rewrite Hw.
  unfold bind, assign_month, read_month, gets. cbn.
  destruct (Z.eqb_spec (Time_month env) (lastMonth st)); [contradiction|].
  reflexivity.
Qed.

(** A handler run that returns has read a defined [self.month], has sold
    first and bought afterwards. *)
Lemma OnSecuritiesChanged_inv (env : Env) (changes : SecurityChanges)
      (st st' : State) (log : list Action) :
  OnSecuritiesChanged env changes st = Ok tt st' log ->
  exists m st_mid,
    month st = Some m
    /\ sell_securities m st = Ok tt st_mid (sell_log m (purchased_securities st))
    /\ st' = with_ledger
               (buy_ledger (Time_month env) (AddedSecurities changes)
                           (purchased_securities st_mid)) st_mid
    /\ log = sell_log m (purchased_securities st)
             ++ buy_log (Time_month env) (AddedSecurities changes).
Proof.
  unfold OnSecuritiesChanged. intro H.
  apply bind_inv in H as (m & st0 & l0 & l1 & H0 & H1 & ->).
  unfold read_month in H0.
  destruct (month st) as [m'|] eqn:Hm; [|discriminate].
  injection H0 as -> <- <-.
  apply bind_inv in H1 as ([] & st_mid & l2 & l3 & H2 & H3 & ->).
  pose proof (sell_securities_log _ _ _ _ H2) as ->.
  rewrite buy_loop_spec in H3. injection H3 as <- <-.
  exists m, st_mid. repeat split; auto.
Qed.

(** ** The host's daily step *)

Lemma Fine_ledger_only (st st' : State) (fine : list FineFundamental.t) :
  purchased_securities st' = purchased_securities st ->
  FineFundamentalFunction st' fine = FineFundamentalFunction st fine.
Proof.
  intro H. unfold FineFundamentalFunction, Fine.not_held. now rewrite H.
Qed.

Lemma tick_warming_up (tk : Tick) (st : State) :
  IsWarmingUp (tick_env tk) = true -> tick tk st = Ok tt st [].
Proof.
  intro H. unfold tick, bind.
  rewrite Coarse_warming_up by exact H. reflexivity.
Qed.

Lemma tick_same_month (tk : Tick) (st : State) :
  IsWarmingUp (tick_env tk) = false ->
  Time_month (tick_env tk) = lastMonth st ->
  tick tk st
  = Ok tt {| lastMonth := lastMonth st;
             month := Some (Time_month (tick_env tk));
             purchased_securities := purchased_securities st |} [].
Proof.
  intros Hw Hm. unfold tick, bind.
  rewrite Coarse_same_month by assumption. reflexivity.
Qed.

Lemma tick_cycle (tk : Tick) (st : State) :
  IsWarmingUp (tick_env tk) = false ->
  Time_month (tick_env tk) <> lastMonth st ->
  Dict.wf (purchased_securities st) ->
  tick tk st
  = Ok tt {| lastMonth := Time_month (tick_env tk);
             month := Some (Time_month (tick_env tk));
             purchased_securities :=
               buy_ledger (Time_month (tick_env tk)) (tick_added tk st)
                 (filter (kept (Time_month (tick_env tk)))
                         (purchased_securities st)) |}
       (sell_log (Time_month (tick_env tk)) (purchased_securities st)
        ++ buy_log (Time_month (tick_env tk)) (tick_added tk st)).
Proof.
  intros Hw Hm Hwf. unfold tick.
  eapply bind_Ok with (l1 := []); [now apply Coarse_new_month|].
  eapply bind_Ok with (l1 := []); [reflexivity|].
  erewrite OnSecuritiesChanged_spec; [|reflexivity|exact Hwf].
  reflexivity.
Qed.

(** ** [FineFundamentalFunction] *)

Lemma filtered_ROA_In (fine : list FineFundamental.t) (x : FineFundamental.t) :
  In x (Fine.filtered_ROA fine)
  <-> In x fine
      /\ Fine.market_cap_ok x = true /\ Fine.us_listed x = true
      /\ Fine.industrial x = true /\ Fine.roa_ok x = true.
Proof.
  unfold Fine.filtered_ROA. rewrite !filter_In. tauto.
Qed.

Lemma sorted_ROA_In (fine : list FineFundamental.t) (x : FineFundamental.t) :
  In x (Fine.sorted_ROA fine) <-> In x (Fine.filtered_ROA fine).
Proof.
  unfold Fine.sorted_ROA, Fine.sorted_EVToEBITDA. now rewrite !sorted_In.
Qed.

(** The first pass on candidates that all have an EV/EBITDA, and the
    second pass, whose keys have passed the quality screen. *)
Lemma sorted_EVToEBITDA_numbers (fine : list FineFundamental.t) :
  Forall has_EV (Fine.filtered_ROA fine) ->
  Fine.sorted_EVToEBITDA fine
  = stable_sorted Fine.EV true (Fine.filtered_ROA fine).
Proof.
  intro H. unfold Fine.sorted_EVToEBITDA.
  now rewrite sorted_numbers.
Qed.

Lemma sorted_ROA_stable (fine : list FineFundamental.t) :
  Fine.sorted_ROA fine
  = stable_sorted Fine.ROA false (Fine.sorted_EVToEBITDA fine).
Proof.
  unfold Fine.sorted_ROA. rewrite sorted_numbers; [reflexivity|].
  apply Forall_forall. intros x _. discriminate.
Qed.

Lemma Fine_as_firstn (st : State) (fine : list FineFundamental.t) :
  FineFundamentalFunction st fine
  = map FineFundamental.Symbol
        (firstn (Z.to_nat NumberSecuritiesPerMonth)
                (filter (Fine.not_held st) (Fine.sorted_ROA fine))).
Proof.
  unfold FineFundamentalFunction.
  rewrite slice_to_nonneg by (rewrite NumberSecuritiesPerMonth_eq; lia).
  apply firstn_map.
Qed.

Lemma Fine_In (st : State) (fine : list FineFundamental.t) (s : Symbol) :
  In s (FineFundamentalFunction st fine) ->
  exists x, In x (Fine.filtered_ROA fine)
            /\ FineFundamental.Symbol x = s
            /\ Fine.not_held st x = true.
Proof.
  rewrite Fine_as_firstn. intro H.
  apply in_map_iff in H as (x & Hs & Hx).
  apply firstn_incl, filter_In in Hx as [Hx Hh].
  apply sorted_ROA_In in Hx. eauto.
Qed.

Lemma StronglySorted_weaken {A} (R R' : A -> A -> Prop) (l : list A) :
  (forall a b, R a b -> R' a b) ->
  StronglySorted R l -> StronglySorted R' l.
Proof.
  intros HR. induction 1 as [|x l Hl IH Hx]; constructor; [exact IH|].
  eapply Forall_impl; [|exact Hx]. intros; auto.
Qed.

(** The fine ranker returns no symbol that is held. *)
Lemma Fine_not_held (st : State) (fine : list FineFundamental.t)
      (s : Symbol) :
  In s (FineFundamentalFunction st fine) ->
  ~ In s (Dict.keys (purchased_securities st)).
Proof.
  intro H. apply Fine_In in H as (x & _ & <- & Hh).
  unfold Fine.not_held in Hh. apply negb_true_iff in Hh.
  now apply contains_false_iff.
Qed.

(* ================================================================== *)
(** * The properties of the specification *)

(** C1 (quota bound).  Whatever the snapshots and the holding ledger, the
    fine ranker returns at most [NumberSecuritiesPerMonth] symbols, that
    quota being the integer quotient of the slot count by the horizon, and
    none of the returned symbols is a key of [purchased_securities]. *)
Theorem fine_quota_bound (st : State) (fine : list FineFundamental.t) :
  (List.length (FineFundamentalFunction st fine)
   <= Z.to_nat NumberSecuritiesPerMonth)%nat
  /\ NumberSecuritiesPerMonth
     = NumberSecurtitiesPortfolio / MonthsToKeepSecurities
  /\ forall s : Symbol,
       In s (FineFundamentalFunction st fine) ->
       ~ In s (Dict.keys (purchased_securities st)).
Proof.
  split; [|split].
  - unfold FineFundamentalFunction. apply slice_to_length.
    rewrite NumberSecuritiesPerMonth_eq. lia.
  - rewrite NumberSecuritiesPerMonth_eq. reflexivity.
  - intro s. apply Fine_not_held.
Qed.

(** C9 (market-capitalization floor).  Every symbol the fine ranker returns
    is the symbol of an input snapshot whose market capitalization exceeds
    50,000,000; so, with one snapshot per symbol, the symbol of a snapshot
    at or under the floor (one of 40,000,000, say) is not returned, whatever
    its other fields. *)
Theorem fine_market_cap_floor (st : State) (fine : list FineFundamental.t) :
  (forall s : Symbol,
      In s (FineFundamentalFunction st fine) ->
      exists y, In y fine /\ FineFundamental.Symbol y = s
                /\ (50000000 < FineFundamental.MarketCap y)%Q)
  /\ (forall x : FineFundamental.t,
         NoDup (map FineFundamental.Symbol fine) ->
         In x fine ->
         ~ (50000000 < FineFundamental.MarketCap x)%Q ->
         ~ In (FineFundamental.Symbol x) (FineFundamentalFunction st fine)).
Proof.
  assert (Hfloor : forall s : Symbol,
             In s (FineFundamentalFunction st fine) ->
             exists y, In y fine /\ FineFundamental.Symbol y = s
                       /\ (50000000 < FineFundamental.MarketCap y)%Q).
  { intros s H. apply Fine_In in H as (y & Hy & Hs & _).
    apply filtered_ROA_In in Hy as (Hy & Hcap & _).
    exists y. repeat split; auto. now apply Qltb_lt. }
  split; [exact Hfloor|].
  intros x Hnd Hx Hcap Hin.
  apply Hfloor in Hin as (y & Hy & Hs & Hycap).
  assert (y = x) as ->; [|contradiction].
  clear - Hnd Hx Hy Hs.
  induction fine as [|z fine IH]; [destruct Hx|].
  cbn [map] in Hnd. apply NoDup_cons_iff in Hnd as [Hz Hnd].
  destruct Hx as [->|Hx], Hy as [->|Hy]; auto.
  - exfalso. apply Hz. rewrite <- Hs. now apply in_map.
  - exfalso. apply Hz. rewrite Hs. now apply in_map.
Qed.

(** C2, as the code has it (sort composition).  Take a set of candidates
    that pass the four filters and all have an EV/EBITDA (none is NaN).  Let
    it be stably sorted by EV/EBITDA descending, and the result stably sorted
    by forward ROA ascending, by any stable sort.  The fine ranker returns
    the symbols of that list, in that order, without the held ones and cut
    at the quota.  The list is the one the ranker's two [sorted] calls
    compute; it is ordered by ROA ascending and, among equal ROA, by
    EV/EBITDA descending, and so is the selection. *)
Theorem sort_composition (st : State) (fine by_ev ranked : list FineFundamental.t) :
  Forall has_EV (Fine.filtered_ROA fine) ->
  stable_sort_of Fine.EV true (Fine.filtered_ROA fine) by_ev ->
  stable_sort_of Fine.ROA false by_ev ranked ->
  FineFundamentalFunction st fine
  = map FineFundamental.Symbol
        (firstn (Z.to_nat NumberSecuritiesPerMonth)
                (filter (Fine.not_held st) ranked))
  /\ ranked = Fine.sorted_ROA fine
  /\ StronglySorted roa_then_ev ranked
  /\ StronglySorted roa_then_ev
       (firstn (Z.to_nat NumberSecuritiesPerMonth)
               (filter (Fine.not_held st) ranked)).
Proof.
  intros Hnum Hev Hroa.
  assert (Eev : by_ev = Fine.sorted_EVToEBITDA fine).
  { rewrite (sorted_EVToEBITDA_numbers fine Hnum).
    eapply stable_sort_unique; [exact Hev|apply stable_sorted_stable]. }
  assert (Eroa : ranked = Fine.sorted_ROA fine).
  { rewrite sorted_ROA_stable.
    eapply stable_sort_unique; [exact Hroa|].
    rewrite Eev. apply stable_sorted_stable. }
  assert (Hlex : StronglySorted roa_then_ev ranked).
  { destruct Hev as (_ & Sev & _), Hroa as (_ & Sroa & Froa).
    apply StronglySorted_weaken
      with (R := fun a b =>
                   (in_order Fine.ROA false a b /\ ~ (Fine.ROA a == Fine.ROA b)%Q)
                   \/ ((Fine.ROA a == Fine.ROA b)%Q
                       /\ in_order Fine.EV true a b)).
    - unfold roa_then_ev, in_order. intros a b [[H1 H2]|[H1 H2]].
      + left. lra.
      + right. split; assumption.
    - apply sorted_refine; [exact Sroa|].
      intro q. rewrite Froa. now apply StronglySorted_filter. }
  split; [|split; [exact Eroa|split; [exact Hlex|]]].
  - rewrite Eroa. apply Fine_as_firstn.
  - now apply StronglySorted_firstn, StronglySorted_filter.
Qed.

(** C4, as the code has it (acquisition weight).  Every acquisition intent
    the handler sends carries [percent_holding] and the flag [False].  That
    weight is (quota/slots)/quota rounded to three decimals: with 24 slots
    and a horizon of 12 the quota is 2 and the weight is the float 0.042,
    which is more than 1/24. *)
Theorem acquisition_weight (env : Env) (changes : SecurityChanges)
        (st st' : State) (log : list Action)
        (s : Symbol) (w : PyFloat.float) (b : bool) :
  OnSecuritiesChanged env changes st = Ok tt st' log ->
  In (SetHoldings s w b) log ->
  w = percent_holding /\ b = false
  /\ NumberSecuritiesPerMonth = 2
  /\ percent_holding
     = PyFloat.round
         (PyFloat.truediv
            (PyFloat.truediv (PyFloat.of_int 2) (PyFloat.of_int 24))
            (PyFloat.of_int 2)) 3
  /\ percent_holding = PyFloat.truediv (PyFloat.of_int 42) (PyFloat.of_int 1000)
  /\ (1 # 24 < PyFloat.to_Q percent_holding)%Q.
Proof.
  intros Hrun Hin.
  apply OnSecuritiesChanged_inv in Hrun as (m & st_mid & _ & _ & _ & ->).
  apply in_app_or in Hin as [Hin|Hin].
  - exfalso. pose proof (sell_log_sells m (purchased_securities st)) as Hs.
    rewrite Forall_forall in Hs. apply (Hs _ Hin).
  - apply buy_log_SetHoldings in Hin as (_ & -> & ->).
    repeat split; try (vm_compute; reflexivity).
Qed.

(** C5 (one selection per month).  A second coarse-filter call in the same
    month and with the same warm-up flag, on the state the first call left,
    answers "unchanged" and changes nothing, whatever the snapshots.  A call
    after the warm-up leaves [lastMonth] at the current month, and when that
    month is new it answers with the selection. *)
Theorem coarse_idempotent_within_month
        (env : Env) (coarse1 coarse2 : list CoarseFundamental.t) (st : State) :
  exists r1 st1,
    CoarseFilterFunction env coarse1 st = Ok r1 st1 []
    /\ CoarseFilterFunction env coarse2 st1 = Ok Unchanged st1 []
    /\ (IsWarmingUp env = false -> lastMonth st1 = Time_month env)
    /\ (IsWarmingUp env = false -> lastMonth st <> Time_month env ->
        r1 = Selected
               (map CoarseFundamental.Symbol
                    (sorted CoarseFundamental.DollarVolume true
                            (filter CoarseFundamental.HasFundamentalData
                                    coarse1)))).
Proof.
  destruct (IsWarmingUp env) eqn:Hw.
  - exists Unchanged, st.
    rewrite !Coarse_warming_up by exact Hw.
    repeat split; discriminate.
  - destruct (Z.eq_dec (Time_month env) (lastMonth st)) as [Hm|Hm].
    + eexists _, _. split; [now apply Coarse_same_month|].
      split; [now rewrite Coarse_same_month|].
      split; [now intros _|]. congruence.
    + eexists _, _. split; [now apply Coarse_new_month|].
      split; [now rewrite Coarse_same_month|].
      split; reflexivity.
Qed.

(** C8 (warm-up).  While the host is warming up, a coarse-filter call
    answers "unchanged", performs no action and returns the state it was
    given: [lastMonth], [month] and the ledger are what they were.  The
    whole daily step is then a no-op. *)
Theorem coarse_warm_up_noop (env : Env) (coarse : list CoarseFundamental.t)
        (fine : list FineFundamental.t) (st : State) :
  IsWarmingUp env = true ->
  CoarseFilterFunction env coarse st = Ok Unchanged st []
  /\ tick {| tick_env := env; tick_coarse := coarse; tick_fine := fine |} st
     = Ok tt st [].
Proof.
  intro Hw. split.
  - now apply Coarse_warming_up.
  - now apply tick_warming_up.
Qed.

(** C7 (sell before buy).  The actions of a handler run are those of
    [sell_securities], all of them liquidations and ledger removals,
    followed by acquisitions and ledger insertions only. *)
Theorem sell_before_buy (env : Env) (changes : SecurityChanges)
        (st st' : State) (log : list Action) :
  OnSecuritiesChanged env changes st = Ok tt st' log ->
  exists m st_mid sells buys,
    month st = Some m
    /\ sell_securities m st = Ok tt st_mid sells
    /\ log = sells ++ buys
    /\ Forall is_sell_action sells
    /\ Forall is_buy_action buys.
Proof.
  intro Hrun.
  apply OnSecuritiesChanged_inv in Hrun as (m & st_mid & Hm & Hsell & _ & ->).
  exists m, st_mid, (sell_log m (purchased_securities st)),
    (buy_log (Time_month env) (AddedSecurities changes)).
  repeat split; auto using sell_log_sells, buy_log_buys.
Qed.

(** ** Open positions *)

Lemma In_apply_intent (held : list Symbol) (a : Action) (s : Symbol) :
  In s (apply_intent held a)
  <-> match a with
      | SetHoldings k _ _ => s = k \/ In s held
      | Liquidate k => s <> k /\ In s held
      | _ => In s held
      end.
Proof.
  destruct a as [k|k w b|k|k m]; cbn [apply_intent In]; try tauto.
  - rewrite filter_In, negb_true_iff.
    destruct (String.eqb_spec k s) as [->|Hne]; intuition congruence.
  - intuition congruence.
Qed.

Lemma open_position_nil (s : Symbol) : ~ open_position [] s.
Proof.
  intros (before & after & w & b & H & _).
  now apply app_cons_not_nil in H.
Qed.

Lemma open_position_snoc (log : list Action) (a : Action) (s : Symbol) :
  open_position (log ++ [a]) s
  <-> match a with
      | SetHoldings k _ _ => s = k \/ open_position log s
      | Liquidate k => s <> k /\ open_position log s
      | _ => open_position log s
      end.
Proof.
  split.
  - intros (before & after & w & b & E & Hn).
    destruct after as [|x after _] using rev_ind.
    + apply app_inj_tail in E as [-> ->]. now left.
    + rewrite app_comm_cons, app_assoc in E.
      apply app_inj_tail in E as [-> ->].
      assert (Hopen : open_position (before ++ SetHoldings s w b :: after) s).
      { exists before, after, w, b. split; [reflexivity|].
        intro Hin. apply Hn. apply in_or_app. now left. }
      destruct x as [k|k w' b'|k|k m]; auto.
      split; [|exact Hopen]. intros ->. apply Hn.
      apply in_or_app. right. now left.
  - assert (Hext : forall x, x <> Liquidate s ->
                             open_position log s ->
                             open_position (log ++ [x]) s).
    { intros x Hx (before & after & w & b & -> & Hn).
      exists before, (after ++ [x]), w, b.
      split; [now rewrite <- app_assoc|].
      intro Hin. apply in_app_or in Hin as [Hin|[Hin|[]]]; auto. }
    destruct a as [k|k w b|k|k m].
    + intros [Hne Hopen]. apply Hext; [congruence|exact Hopen].
    + intros [->|Hopen].
      * exists log, [], w, b. split; [reflexivity|]. intros [].
      * apply Hext; [discriminate|exact Hopen].
    + apply Hext. discriminate.
    + apply Hext. discriminate.
Qed.

(** The computed set of open positions is the one of the definition. *)
Lemma open_positions_iff (log : list Action) (s : Symbol) :
  In s (open_positions log) <-> open_position log s.
Proof.
  unfold open_positions.
  induction log as [|a log IH] using rev_ind.
  - split; [intros []|]. apply open_position_nil.
  - rewrite fold_left_app. cbn [fold_left].
    rewrite In_apply_intent, open_position_snoc.
    destruct a; rewrite IH; reflexivity.
Qed.

Lemma In_keys_get {V} (s : Symbol) (d : Dict.dict V) :
  In s (Dict.keys d) <-> Dict.get s d <> None.
Proof.
  split.
  - intros H E. now apply get_None_iff in E.
  - intro H. destruct (in_dec string_dec s (Dict.keys d)) as [Hin|Hn];
      [exact Hin|]. now apply get_None_iff in Hn.
Qed.

Lemma fold_sell_log (m : Z) (d : Dict.dict Z) (held : list Symbol) (s : Symbol) :
  In s (fold_left apply_intent (sell_log m d) held)
  <-> In s held /\ ~ In s (sell_keys m d).
Proof.
  unfold sell_log. rewrite fold_left_app.
  assert (Hpop : forall ks h,
             fold_left apply_intent (map LedgerPop ks) h = h).
  { induction ks as [|k ks IH]; intro h; [reflexivity|apply IH]. }
  rewrite Hpop. generalize (sell_keys m d) as ks. intro ks. revert held.
  induction ks as [|k ks IH]; intro held; cbn [map fold_left In].
  - tauto.
  - rewrite IH, In_apply_intent. intuition congruence.
Qed.

Lemma fold_buy_log (tm : Z) (added : list Security.t) (held : list Symbol)
      (s : Symbol) :
  In s (fold_left apply_intent (buy_log tm added) held)
  <-> In s (map Security.Symbol added) \/ In s held.
Proof.
  revert held. unfold buy_log.
  induction added as [|a added IH]; intro held;
    cbn [flat_map map fold_left app In].
  - tauto.
  - fold (buy_log tm added). unfold buy_log. rewrite IH.
    cbn [apply_intent In]. intuition congruence.
Qed.

(** One handler run keeps the ledger in step with the intents sent. *)
Lemma OnSecuritiesChanged_ledger (env : Env) (changes : SecurityChanges)
      (st st' : State) (log : list Action) (held : list Symbol) :
  OnSecuritiesChanged env changes st = Ok tt st' log ->
  Dict.wf (purchased_securities st) ->
  (forall s, In s held <-> In s (Dict.keys (purchased_securities st))) ->
  Dict.wf (purchased_securities st')
  /\ month st' = month st
  /\ forall s, In s (fold_left apply_intent log held)
               <-> In s (Dict.keys (purchased_securities st')).
Proof.
  intros Hrun Hwf Hheld.
  destruct (OnSecuritiesChanged_inv _ _ _ _ _ Hrun) as (m & _ & Hm & _).
  rewrite (OnSecuritiesChanged_spec env changes st m Hm Hwf) in Hrun.
  injection Hrun as <- <-.
  cbn [with_ledger purchased_securities month].
  split; [now apply wf_buy_ledger, wf_filter|].
  split; [reflexivity|].
  intro s. rewrite fold_left_app, fold_buy_log, fold_sell_log, Hheld.
  rewrite !In_keys_get, get_buy_ledger, get_filter_kept by exact Hwf.
  rewrite sell_keys_In by exact Hwf.
  destruct (in_dec string_dec s (map Security.Symbol (AddedSecurities changes)))
    as [Hin|Hn].
  - split; [discriminate|]. now left.
  - destruct (Dict.get s (purchased_securities st)) as [v|].
    + destruct (Z.eqb_spec v m) as [->|Hne].
      * intuition congruence.
      * split; [discriminate|]. intros _. right.
        split; [discriminate|]. congruence.
    + intuition congruence.
Qed.

Lemma tick_ledger (tk : Tick) (st : State) (held : list Symbol) :
  Dict.wf (purchased_securities st) ->
  (forall s, In s held <-> In s (Dict.keys (purchased_securities st))) ->
  exists st' log,
    tick tk st = Ok tt st' log
    /\ Dict.wf (purchased_securities st')
    /\ forall s, In s (fold_left apply_intent log held)
                 <-> In s (Dict.keys (purchased_securities st')).
Proof.
  intros Hwf Hheld.
  destruct (IsWarmingUp (tick_env tk)) eqn:Hw.
  { exists st, []. rewrite tick_warming_up by exact Hw. auto. }
  destruct (Z.eq_dec (Time_month (tick_env tk)) (lastMonth st)) as [Hm|Hm].
  { eexists _, []. rewrite tick_same_month by assumption.
    split; [reflexivity|]. auto. }
  pose proof (tick_cycle tk st Hw Hm Hwf) as Htick.
  eexists _, _. split; [exact Htick|].
  unfold tick in Htick.
  apply bind_inv in Htick as (r & st1 & l1 & l2 & H1 & H2 & E).
  rewrite Coarse_new_month in H1 by assumption.
  injection H1 as <- <- <-.
  apply bind_inv in H2 as (added & st2 & l3 & l4 & H3 & H4 & ->).
  injection H3 as <- <- <-.
  cbn [app] in E. rewrite <- E in H4.
  apply (OnSecuritiesChanged_ledger _ _ _ _ _ held) in H4 as (H5 & _ & H6);
    auto.
Qed.

Lemma run_ticks_ledger (tks : list Tick) (st : State) (held : list Symbol) :
  Dict.wf (purchased_securities st) ->
  (forall s, In s held <-> In s (Dict.keys (purchased_securities st))) ->
  exists st' log,
    run_ticks tks st = Ok tt st' log
    /\ Dict.wf (purchased_securities st')
    /\ forall s, In s (fold_left apply_intent log held)
                 <-> In s (Dict.keys (purchased_securities st')).
Proof.
  revert st held. unfold run_ticks.
  induction tks as [|tk tks IH]; intros st held Hwf Hheld; cbn [for_each].
  - exists st, []. auto.
  - destruct (tick_ledger tk st held Hwf Hheld) as (st1 & l1 & H1 & Hwf1 & Hh1).
    destruct (IH st1 _ Hwf1 Hh1) as (st2 & l2 & H2 & Hwf2 & Hh2).
    exists st2, (l1 ++ l2). split; [now apply bind_Ok with tt st1|].
    split; [exact Hwf2|]. intro s. now rewrite fold_left_app.
Qed.

(** C6 (ledger bijection).  Any sequence of daily steps of the host,
    started on the state [Initialize] leaves (empty ledger), runs to its
    end, and afterwards the keys of [purchased_securities] are the symbols
    for which an acquisition intent was sent and no liquidation intent
    since. *)
Theorem ledger_tracks_open_positions (tks : list Tick) :
  exists st log,
    run_ticks tks Initialize = Ok tt st log
    /\ forall s : Symbol,
         In s (Dict.keys (purchased_securities st)) <-> open_position log s.
Proof.
  destruct (run_ticks_ledger tks Initialize []) as (st & log & Hrun & _ & H).
  - constructor.
  - intro s. reflexivity.
  - exists st, log. split; [exact Hrun|].
    intro s. rewrite <- open_positions_iff. symmetry. apply H.
Qed.

(** ** When [self.month] exists *)

Lemma call_step (c : Call) (st st' : State) (log : list Action) :
  call c st = Ok tt st' log ->
  Dict.wf (purchased_securities st) ->
  Dict.wf (purchased_securities st')
  /\ (month st' <> None <-> month st <> None \/ active_coarse c).
Proof.
  intros Hcall Hwf. destruct c as [env coarse|fine|env changes];
    cbn [call active_coarse] in *.
  - apply bind_inv in Hcall as (r & st1 & l1 & l2 & H1 & H2 & _).
    injection H2 as <- _.
    destruct (IsWarmingUp env) eqn:Hw.
    + rewrite Coarse_warming_up in H1 by exact Hw.
      injection H1 as _ <- _. split; [exact Hwf|].
      intuition congruence.
    + destruct (Z.eq_dec (Time_month env) (lastMonth st)) as [Hm|Hm].
      * rewrite Coarse_same_month in H1 by assumption.
        injection H1 as _ <- _. cbn. split; [exact Hwf|].
        split; [now right|discriminate].
      * rewrite Coarse_new_month in H1 by assumption.
        injection H1 as _ <- _. cbn. split; [exact Hwf|].
        split; [now right|discriminate].
  - apply bind_inv in Hcall as (r & st1 & l1 & l2 & H1 & H2 & _).
    injection H1 as _ <- _. injection H2 as <- _.
    split; [exact Hwf|]. tauto.
  - apply (OnSecuritiesChanged_ledger _ _ _ _ _
             (Dict.keys (purchased_securities st))) in Hcall
      as (Hwf' & Hm & _); [|exact Hwf|reflexivity].
    split; [exact Hwf'|]. rewrite Hm. tauto.
Qed.

Lemma run_calls_step (cs : list Call) (st st' : State) (log : list Action) :
  run_calls cs st = Ok tt st' log ->
  Dict.wf (purchased_securities st) ->
  Dict.wf (purchased_securities st')
  /\ (month st' <> None <-> month st <> None \/ Exists active_coarse cs).
Proof.
  unfold run_calls. revert st log.
  induction cs as [|c cs IH]; intros st log Hrun Hwf; cbn [for_each] in Hrun.
  - injection Hrun as <- _. split; [exact Hwf|].
    rewrite Exists_nil. tauto.
  - apply bind_inv in Hrun as ([] & st1 & l1 & l2 & H1 & H2 & _).
    apply call_step in H1 as [Hwf1 Hm1]; [|exact Hwf].
    apply IH in H2 as [Hwf2 Hm2]; [|exact Hwf1].
    split; [exact Hwf2|]. rewrite Hm2, Hm1, Exists_cons. tauto.
Qed.

(** C10 (the handler reads [self.month]).  After any sequence of method
    calls that started from [Initialize] and returned, the securities-changed
    handler returns if and only if one of the calls was a coarse-filter call
    made after the warm-up; if none was, the handler raises
    [AttributeError] on [month]. *)
Theorem handler_defined_iff_active_coarse
        (calls : list Call) (st : State) (log : list Action)
        (env : Env) (changes : SecurityChanges) :
  run_calls calls Initialize = Ok tt st log ->
  ((exists st' log', OnSecuritiesChanged env changes st = Ok tt st' log')
   <-> Exists active_coarse calls)
  /\ (~ Exists active_coarse calls ->
      OnSecuritiesChanged env changes st = Raise (AttributeError "month")).
Proof.
  intro Hrun.
  apply run_calls_step in Hrun as [Hwf Hm]; [|constructor].
  cbn [Initialize month] in Hm.
  split; [split|].
  - intros (st' & log' & H).
    apply OnSecuritiesChanged_inv in H as (m & _ & Hsome & _).
    assert (month st <> None) as Hd by congruence.
    apply Hm in Hd as [Hd|Hd]; [congruence|exact Hd].
  - intro Hex.
    destruct (month st) as [m|] eqn:Hsome.
    + eexists _, _. now apply OnSecuritiesChanged_spec with (m := m).
    + exfalso. apply (proj2 Hm); auto.
  - intro Hn. apply OnSecuritiesChanged_undefined.
    destruct (month st) as [m|] eqn:Hsome; [|reflexivity].
    exfalso. apply Hn.
    assert (Some m <> None) as Hd by discriminate.
    apply Hm in Hd as [Hd|Hd]; [congruence|exact Hd].
Qed.

(** ** Holding periods *)

Lemma month_of_year (t : Z) : month_of (t + 12) = month_of t.
Proof.
  unfold month_of. f_equal.
  replace (t + 12) with (t + 1 * 12) by lia. apply Z.mod_add. lia.
Qed.

Lemma month_of_within_year (t k : Z) :
  0 < k < 12 -> month_of (t + k) <> month_of t.
Proof.
  unfold month_of. intros Hk E.
  pose proof (Z.div_mod t 12). pose proof (Z.div_mod (t + k) 12).
  pose proof (Z.mod_pos_bound t 12). pose proof (Z.mod_pos_bound (t + k) 12).
  lia.
Qed.

Lemma In_Liquidate_log (m tm : Z) (d : Dict.dict Z) (added : list Security.t)
      (s : Symbol) :
  In (Liquidate s) (sell_log m d ++ buy_log tm added) <-> In s (sell_keys m d).
Proof.
  unfold sell_log. rewrite !in_app_iff, !in_map_iff. split.
  - intros [[(k & E & Hk)|(k & E & _)]|Hb].
    + now injection E as ->.
    + discriminate.
    + exfalso. pose proof (buy_log_buys tm added) as H.
      rewrite Forall_forall in H. apply (H _ Hb).
  - intro H. left. left. eauto.
Qed.

Lemma In_LedgerPop_log (m tm : Z) (d : Dict.dict Z) (added : list Security.t)
      (s : Symbol) :
  In (LedgerPop s) (sell_log m d ++ buy_log tm added) <-> In s (sell_keys m d).
Proof.
  unfold sell_log. rewrite !in_app_iff, !in_map_iff. split.
  - intros [[(k & E & _)|(k & E & Hk)]|Hb].
    + discriminate.
    + now injection E as ->.
    + exfalso. pose proof (buy_log_buys tm added) as H.
      rewrite Forall_forall in H. apply (H _ Hb).
  - intro H. left. right. eauto.
Qed.

Lemma In_SetHoldings_log (m tm : Z) (d : Dict.dict Z) (added : list Security.t)
      (s : Symbol) (w : PyFloat.float) (b : bool) :
  In (SetHoldings s w b) (sell_log m d ++ buy_log tm added) ->
  In s (map Security.Symbol added).
Proof.
  rewrite in_app_iff. intros [Hs|Hb].
  - exfalso. pose proof (sell_log_sells m d) as H.
    rewrite Forall_forall in H. apply (H _ Hs).
  - apply buy_log_SetHoldings in Hb. exact (proj1 Hb).
Qed.

Lemma tick_added_symbols (tk : Tick) (st : State) :
  map Security.Symbol (tick_added tk st)
  = FineFundamentalFunction st (tick_fine tk).
Proof.
  unfold tick_added. rewrite map_map. cbn [Security.Symbol]. apply map_id.
Qed.

Lemma held_not_added (tk : Tick) (st : State) (s : Symbol) (v : Z) :
  Dict.get s (purchased_securities st) = Some v ->
  ~ In s (map Security.Symbol (tick_added tk st)).
Proof.
  intros Hget Hin. rewrite tick_added_symbols in Hin.
  apply Fine_not_held in Hin. apply Hin.
  eapply get_Some_keys. exact Hget.
Qed.

(** What one monthly cycle does to a single symbol. *)
Lemma monthly_step (t : Z) (coarse : list CoarseFundamental.t)
      (fine : list FineFundamental.t) (st : State) :
  Dict.wf (purchased_securities st) ->
  lastMonth st <> month_of t ->
  exists st' log,
    tick {| tick_env := {| IsWarmingUp := false; Time_month := month_of t |};
            tick_coarse := coarse; tick_fine := fine |} st
    = Ok tt st' log
    /\ Dict.wf (purchased_securities st')
    /\ lastMonth st' = month_of t
    /\ (forall s v,
           Dict.get s (purchased_securities st) = Some v ->
           v <> month_of t ->
           ~ In (Liquidate s) log /\ ~ In (LedgerPop s) log
           /\ Dict.get s (purchased_securities st') = Some v)
    /\ (forall s,
           Dict.get s (purchased_securities st) = Some (month_of t) ->
           In (Liquidate s) log /\ In (LedgerPop s) log
           /\ Dict.get s (purchased_securities st') = None)
    /\ (forall s w b,
           In (SetHoldings s w b) log ->
           Dict.get s (purchased_securities st') = Some (month_of t)).
Proof.
  intros Hwf Hlast.
  set (tk := {| tick_env := _ |}).
  eexists _, _. split.
  { apply tick_cycle; [reflexivity|cbn; congruence|exact Hwf]. }
  change (Time_month (tick_env tk)) with (month_of t).
  cbn [purchased_securities lastMonth].
  split; [now apply wf_buy_ledger, wf_filter|].
  split; [reflexivity|].
  split; [|split].
  - intros s v Hget Hv.
    rewrite In_Liquidate_log, In_LedgerPop_log, sell_keys_In by exact Hwf.
    rewrite get_buy_ledger, get_filter_kept, Hget by exact Hwf.
    destruct (in_dec string_dec s (map Security.Symbol (tick_added tk st)))
      as [Hin|_].
    { exfalso. eapply held_not_added; eauto. }
    destruct (Z.eqb_spec v (month_of t)); [contradiction|].
    repeat split; congruence.
  - intros s Hget.
    rewrite In_Liquidate_log, In_LedgerPop_log, sell_keys_In by exact Hwf.
    rewrite get_buy_ledger, get_filter_kept, Hget, Z.eqb_refl by exact Hwf.
    destruct (in_dec string_dec s (map Security.Symbol (tick_added tk st)))
      as [Hin|_].
    { exfalso. eapply held_not_added; eauto. }
    auto.
  - intros s w b Hin. apply In_SetHoldings_log in Hin.
    rewrite get_buy_ledger.
    destruct (in_dec string_dec s (map Security.Symbol (tick_added tk st)));
      [reflexivity|contradiction].
Qed.

Lemma trace_monthly_cons (t : Z) (coarse : list CoarseFundamental.t)
      (fine : list FineFundamental.t)
      (rest : list (list CoarseFundamental.t * list FineFundamental.t))
      (st st1 : State) (log1 : list Action) :
  tick {| tick_env := {| IsWarmingUp := false; Time_month := month_of t |};
          tick_coarse := coarse; tick_fine := fine |} st
  = Ok tt st1 log1 ->
  trace_ticks (monthly_ticks t ((coarse, fine) :: rest)) st
  = match trace_ticks (monthly_ticks (t + 1) rest) st1 with
    | Some tr => Some ((st1, log1) :: tr)
    | None => None
    end.
Proof.
  intro H. cbn [monthly_ticks trace_ticks]. now rewrite H.
Qed.

Lemma month_of_next (t : Z) : month_of t <> month_of (t + 1).
Proof.
  intro E. symmetry in E. revert E. apply month_of_within_year. lia.
Qed.

(** Monthly cycles never raise. *)
Lemma trace_monthly_total
      (inputs : list (list CoarseFundamental.t * list FineFundamental.t))
      (t : Z) (st : State) :
  Dict.wf (purchased_securities st) ->
  lastMonth st <> month_of t ->
  exists trace,
    trace_ticks (monthly_ticks t inputs) st = Some trace
    /\ List.length trace = List.length inputs.
Proof.
  revert t st.
  induction inputs as [|[coarse fine] rest IH]; intros t st Hwf Hlast.
  - exists []. split; reflexivity.
  - destruct (monthly_step t coarse fine st Hwf Hlast)
      as (st1 & log1 & Htick & Hwf1 & Hl1 & _).
    destruct (IH (t + 1) st1 Hwf1) as (tr & Htr & Hlen).
    { rewrite Hl1. apply month_of_next. }
    exists ((st1, log1) :: tr).
    rewrite (trace_monthly_cons _ _ _ _ _ _ _ Htick), Htr.
    split; [reflexivity|]. cbn [List.length]. now rewrite Hlen.
Qed.

(** An entry stored under the month-of-year that comes up [k] cycles from
    now stays untouched for [k] cycles and is liquidated by the next. *)
Lemma hold_until
      (inputs : list (list CoarseFundamental.t * list FineFundamental.t))
      (t : Z) (st : State) (trace : list (State * list Action))
      (s : Symbol) (k : nat) :
  Dict.wf (purchased_securities st) ->
  lastMonth st <> month_of t ->
  Dict.get s (purchased_securities st) = Some (month_of (t + Z.of_nat k)) ->
  (k < 12)%nat ->
  trace_ticks (monthly_ticks t inputs) st = Some trace ->
  (forall j st_j log_j,
      (j < k)%nat ->
      nth_error trace j = Some (st_j, log_j) ->
      ~ In (Liquidate s) log_j /\ ~ In (LedgerPop s) log_j
      /\ Dict.get s (purchased_securities st_j)
         = Some (month_of (t + Z.of_nat k)))
  /\ (forall st' log',
         nth_error trace k = Some (st', log') ->
         In (Liquidate s) log' /\ In (LedgerPop s) log'
         /\ Dict.get s (purchased_securities st') = None).
Proof.
  revert t st trace k.
  induction inputs as [|[coarse fine] rest IH];
    intros t st trace k Hwf Hlast Hget Hk Htrace.
  - injection Htrace as <-. split.
    + intros j st_j log_j _ Hnth. destruct j; discriminate.
    + intros st' log' Hnth. destruct k; discriminate.
  - destruct (monthly_step t coarse fine st Hwf Hlast)
      as (st1 & log1 & Htick & Hwf1 & Hl1 & Hkeep & Hsell & _).
    rewrite (trace_monthly_cons _ _ _ _ _ _ _ Htick) in Htrace.
    destruct (trace_ticks (monthly_ticks (t + 1) rest) st1) as [tr|] eqn:Htr;
      [|discriminate].
    injection Htrace as <-.
    destruct k as [|k].
    + rewrite Z.add_0_r in Hget.
      split; [intros j ? ? Hj; lia|].
      intros st' log' [= <- <-]. now apply Hsell.
    + assert (Hne : month_of (t + Z.of_nat (S k)) <> month_of t)
        by (apply month_of_within_year; lia).
      destruct (Hkeep s _ Hget Hne) as (Hn1 & Hn2 & Hget1).
      assert (E : t + Z.of_nat (S k) = t + 1 + Z.of_nat k) by lia.
      rewrite E in *.
      destruct (IH (t + 1) st1 tr k Hwf1) as [IH1 IH2]; auto; try lia.
      { rewrite Hl1. apply month_of_next. }
      split.
      * intros [|j] st_j log_j Hj Hnth; cbn [nth_error] in Hnth.
        -- injection Hnth as <- <-. auto.
        -- apply (IH1 j); [lia|exact Hnth].
      * intros st' log' Hnth. cbn [nth_error] in Hnth. now apply IH2.
Qed.

Lemma acquired_held_liquidated
      (inputs : list (list CoarseFundamental.t * list FineFundamental.t))
      (t : Z) (st : State) (trace : list (State * list Action)) :
  Dict.wf (purchased_securities st) ->
  lastMonth st <> month_of t ->
  trace_ticks (monthly_ticks t inputs) st = Some trace ->
  forall (i : nat) st_i log_i s w b,
    nth_error trace i = Some (st_i, log_i) ->
    In (SetHoldings s w b) log_i ->
    (forall j st_j log_j,
        (i < j < i + 12)%nat ->
        nth_error trace j = Some (st_j, log_j) ->
        ~ In (Liquidate s) log_j /\ ~ In (LedgerPop s) log_j
        /\ Dict.get s (purchased_securities st_j)
           = Some (month_of (t + Z.of_nat i)))
    /\ (forall st' log',
           nth_error trace (i + 12) = Some (st', log') ->
           In (Liquidate s) log' /\ In (LedgerPop s) log'
           /\ Dict.get s (purchased_securities st') = None).
Proof.
  revert t st trace.
  induction inputs as [|[coarse fine] rest IH];
    intros t st trace Hwf Hlast Htrace i st_i log_i s w b Hi Hbuy.
  - injection Htrace as <-. destruct i; discriminate.
  - destruct (monthly_step t coarse fine st Hwf Hlast)
      as (st1 & log1 & Htick & Hwf1 & Hl1 & _ & _ & Hbought).
    rewrite (trace_monthly_cons _ _ _ _ _ _ _ Htick) in Htrace.
    destruct (trace_ticks (monthly_ticks (t + 1) rest) st1) as [tr|] eqn:Htr;
      [|discriminate].
    injection Htrace as <-.
    assert (Hl1' : lastMonth st1 <> month_of (t + 1))
      by (rewrite Hl1; apply month_of_next).
    destruct i as [|i]; cbn [nth_error] in Hi.
    + injection Hi as <- <-.
      apply Hbought in Hbuy.
      rewrite Z.add_0_r.
      rewrite <- (month_of_year t) in Hbuy |- *.
      replace (t + 12) with (t + 1 + Z.of_nat 11) in Hbuy |- * by lia.
      destruct (hold_until rest (t + 1) st1 tr s 11 Hwf1 Hl1' Hbuy)
        as [H1 H2]; [lia|exact Htr|].
      split.
      * intros [|j] st_j log_j Hj Hnth; [lia|].
        cbn [nth_error] in Hnth. apply (H1 j); [lia|exact Hnth].
      * intros st' log' Hnth. cbn [nth_error Nat.add] in Hnth.
        now apply H2.
    + destruct (IH (t + 1) st1 tr Hwf1 Hl1' Htr i st_i log_i s w b Hi Hbuy)
        as [H1 H2].
      replace (t + Z.of_nat (S i)) with (t + 1 + Z.of_nat i) by lia.
      split.
      * intros [|j] st_j log_j Hj Hnth; [lia|].
        cbn [nth_error] in Hnth. apply (H1 j); [lia|exact Hnth].
      * intros st' log' Hnth. cbn [nth_error Nat.add] in Hnth.
        now apply H2.
Qed.

Lemma In_Liquidate_sell_log (m : Z) (d : Dict.dict Z) (s : Symbol) :
  In (Liquidate s) (sell_log m d) <-> In s (sell_keys m d).
Proof.
  rewrite <- (In_Liquidate_log m 0 d [] s). cbn [buy_log flat_map].
  now rewrite app_nil_r.
Qed.

(** C3 (horizon enforcement).  Start one cycle per calendar month in month
    [t0], on a state whose last processed month is another one.  The run
    does not raise.  A symbol for which cycle [i] sends an acquisition
    intent is neither liquidated nor removed from the ledger by the cycles
    after [i] and before [i + MonthsToKeepSecurities]; its entry keeps the
    month of cycle [i]; cycle [i + MonthsToKeepSecurities] liquidates it and
    removes the entry.  And the sell step run in month [t] liquidates
    exactly the entries stored under the month of
    [t - MonthsToKeepSecurities], and leaves the others as they are. *)
Theorem horizon_enforcement
        (t0 : Z)
        (inputs : list (list CoarseFundamental.t * list FineFundamental.t))
        (st0 : State) :
  Dict.wf (purchased_securities st0) ->
  lastMonth st0 <> month_of t0 ->
  (exists trace,
      trace_ticks (monthly_ticks t0 inputs) st0 = Some trace
      /\ List.length trace = List.length inputs
      /\ forall (i : nat) st_i log_i s w b,
           nth_error trace i = Some (st_i, log_i) ->
           In (SetHoldings s w b) log_i ->
           (forall j st_j log_j,
               (i < j < i + Z.to_nat MonthsToKeepSecurities)%nat ->
               nth_error trace j = Some (st_j, log_j) ->
               ~ In (Liquidate s) log_j /\ ~ In (LedgerPop s) log_j
               /\ Dict.get s (purchased_securities st_j)
                  = Some (month_of (t0 + Z.of_nat i)))
           /\ (forall st' log',
                  nth_error trace (i + Z.to_nat MonthsToKeepSecurities)
                  = Some (st', log') ->
                  In (Liquidate s) log' /\ In (LedgerPop s) log'
                  /\ Dict.get s (purchased_securities st') = None))
  /\ (forall (t : Z) (st : State),
         Dict.wf (purchased_securities st) ->
         exists st' log,
           sell_securities (month_of t) st = Ok tt st' log
           /\ (forall s, In (Liquidate s) log
                         <-> Dict.get s (purchased_securities st)
                             = Some (month_of (t - MonthsToKeepSecurities)))
           /\ (forall s, Dict.get s (purchased_securities st')
                         = match Dict.get s (purchased_securities st) with
                           | Some v =>
                               if v =? month_of (t - MonthsToKeepSecurities)
                               then None else Some v
                           | None => None
                           end)).
Proof.
  intros Hwf0 Hlast0. split.
  - destruct (trace_monthly_total inputs t0 st0 Hwf0 Hlast0)
      as (trace & Htrace & Hlen).
    exists trace. split; [exact Htrace|]. split; [exact Hlen|].
    change (Z.to_nat MonthsToKeepSecurities) with 12%nat.
    exact (acquired_held_liquidated inputs t0 st0 trace Hwf0 Hlast0 Htrace).
  - intros t st Hwf.
    assert (E : month_of (t - MonthsToKeepSecurities) = month_of t).
    { rewrite <- (month_of_year (t - MonthsToKeepSecurities)).
      f_equal. unfold MonthsToKeepSecurities. lia. }
    rewrite E.
    eexists _, _. split; [now apply sell_securities_spec|].
    split.
    + intro s. rewrite In_Liquidate_sell_log. now apply sell_keys_In.
    + intro s. cbn [with_ledger purchased_securities].
      now apply get_filter_kept.
Qed.

(** C4, as the specification states it, fails: the handler sends a weight
    that is not 1/24. *)
Lemma weight_is_not_one_over_slots :
  ~ (forall env changes st st' log s w b,
        OnSecuritiesChanged env changes st = Ok tt st' log ->
        In (SetHoldings s w b) log ->
        (PyFloat.to_Q w == 1 # Z.to_pos NumberSecurtitiesPortfolio)%Q).
Proof.
  intro H.
  assert (Hrun : OnSecuritiesChanged example_env example_changes example_state
                 = Ok tt
                      (with_ledger [("D", 2); ("X", 1)]%string example_state)
                      [Liquidate "E"; Liquidate "B";
                       LedgerPop "E"; LedgerPop "B";
                       SetHoldings "X" percent_holding false;
                       LedgerStore "X" 1]).
  { vm_compute. reflexivity. }
  specialize (H _ _ _ _ _ "X"%string percent_holding false Hrun).
  assert (Hq : (PyFloat.to_Q percent_holding
                == 1 # Z.to_pos NumberSecurtitiesPortfolio)%Q).
  { apply H. do 4 right. left. reflexivity. }
  vm_compute in Hq. discriminate.
Qed.

(* ================================================================== *)
(** * Further properties of the methods *)

(** ** The coarse filter *)

(** X1.  After the warm-up and in a new month, the coarse filter returns the
    symbols of exactly the snapshots that have fundamental data, records the
    month and keeps the ledger.  When each of those snapshots has a dollar
    volume (none is NaN), the symbols come sorted by dollar volume
    descending, snapshots of equal volume in input order. *)
Theorem coarse_selects_by_dollar_volume
        (env : Env) (coarse : list CoarseFundamental.t) (st : State) :
  IsWarmingUp env = false ->
  Time_month env <> lastMonth st ->
  exists l st',
    CoarseFilterFunction env coarse st
    = Ok (Selected (map CoarseFundamental.Symbol l)) st' []
    /\ Permutation (filter CoarseFundamental.HasFundamentalData coarse) l
    /\ (Forall has_volume (filter CoarseFundamental.HasFundamentalData coarse) ->
        stable_sort_of (fun x => value (CoarseFundamental.DollarVolume x)) true
          (filter CoarseFundamental.HasFundamentalData coarse) l)
    /\ (forall x, In x l
                  <-> In x coarse /\ CoarseFundamental.HasFundamentalData x = true)
    /\ lastMonth st' = Time_month env
    /\ month st' = Some (Time_month env)
    /\ purchased_securities st' = purchased_securities st.
Proof.
  intros Hw Hm.
  eexists _, _. split; [now apply Coarse_new_month|].
  split; [apply sorted_perm|].
  split.
  { intro Hnum. rewrite sorted_numbers by exact Hnum.
    apply stable_sorted_stable. }
  split; [|cbn; auto].
  intro x. rewrite sorted_In. apply filter_In.
Qed.

(** X2.  No call of the coarse filter raises, sends an intent or touches the
    ledger; when it answers "unchanged" the last processed month is what it
    was, and after the warm-up [month] holds the clock's month. *)
Theorem coarse_frame
        (env : Env) (coarse : list CoarseFundamental.t) (st : State) :
  exists r st',
    CoarseFilterFunction env coarse st = Ok r st' []
    /\ purchased_securities st' = purchased_securities st
    /\ (r = Unchanged -> lastMonth st' = lastMonth st)
    /\ (IsWarmingUp env = false -> month st' = Some (Time_month env))
    /\ (IsWarmingUp env = true -> st' = st).
Proof.
  destruct (IsWarmingUp env) eqn:Hw.
  - exists Unchanged, st. rewrite Coarse_warming_up by exact Hw.
    repeat split; auto. discriminate.
  - destruct (Z.eq_dec (Time_month env) (lastMonth st)) as [Hm|Hm].
    + eexists _, _. split; [now apply Coarse_same_month|].
      cbn. repeat split; auto. discriminate.
    + eexists _, _. split; [now apply Coarse_new_month|].
      cbn. repeat split; auto; discriminate.
Qed.

(** ** The fine ranker *)

(** X3.  Every symbol the fine ranker returns belongs to an input snapshot
    of a company of the USA listed on NYS or NAS, outside the utilities and
    financial-services sectors, with a forward ROA above 0.25 and a market
    capitalization above 50,000,000. *)
Theorem fine_passes_every_screen
        (st : State) (fine : list FineFundamental.t) (s : Symbol) :
  In s (FineFundamentalFunction st fine) ->
  exists x,
    In x fine /\ FineFundamental.Symbol x = s
    /\ (50000000 < FineFundamental.MarketCap x)%Q
    /\ FineFundamental.CountryId (FineFundamental.CompanyReference x) = "USA"%string
    /\ (FineFundamental.PrimaryExchangeID (FineFundamental.CompanyReference x)
        = "NYS"%string
        \/ FineFundamental.PrimaryExchangeID (FineFundamental.CompanyReference x)
           = "NAS"%string)
    /\ FineFundamental.MorningstarSectorCode (FineFundamental.AssetClassification x)
       <> MorningstarSectorCode.Utilities
    /\ FineFundamental.MorningstarSectorCode (FineFundamental.AssetClassification x)
       <> MorningstarSectorCode.FinancialServices
    /\ (1 # 4 < FineFundamental.ForwardROA (FineFundamental.ValuationRatios x))%Q.
Proof.
  intro H. apply Fine_In in H as (x & Hx & Hs & _).
  apply filtered_ROA_In in Hx as (Hx & Hcap & Hus & Hind & Hroa).
  exists x. split; [exact Hx|]. split; [exact Hs|].
  split; [now apply Qltb_lt|].
  unfold Fine.us_listed in Hus.
  apply andb_true_iff in Hus as [Hc He].
  apply String.eqb_eq in Hc. split; [exact Hc|].
  split.
  { apply orb_true_iff in He as [He|He]; apply String.eqb_eq in He; auto. }
  unfold Fine.industrial in Hind.
  apply andb_true_iff in Hind as [Hu Hf].
  apply negb_true_iff in Hu, Hf.
  split; [now apply Z.eqb_neq|]. split; [now apply Z.eqb_neq|].
  now apply Qltb_lt.
Qed.

Lemma filter_Permutation {A} (f : A -> bool) (l l' : list A) :
  Permutation l l' -> Permutation (filter f l) (filter f l').
Proof.
  induction 1 as [|x l l' _ IH|x y l|l l' l'' _ IH1 _ IH2]; cbn [filter].
  - constructor.
  - destruct (f x); [now constructor|exact IH].
  - destruct (f x), (f y); try reflexivity. apply perm_swap.
  - now transitivity (filter f l').
Qed.

Lemma NoDup_map_filter {A B} (g : A -> B) (f : A -> bool) (l : list A) :
  NoDup (map g l) -> NoDup (map g (filter f l)).
Proof.
  induction l as [|x l IH]; cbn [map filter]; [auto|].
  intro H. apply NoDup_cons_iff in H as [Hx Hl].
  destruct (f x); [|auto]. cbn [map]. constructor; [|auto].
  intro Hin. apply Hx. apply in_map_iff in Hin as (y & E & Hy).
  apply filter_In in Hy as [Hy _]. rewrite <- E. now apply in_map.
Qed.

Lemma NoDup_firstn {A} (n : nat) (l : list A) : NoDup l -> NoDup (firstn n l).
Proof.
  intro H. rewrite <- (firstn_skipn n l) in H.
  now apply NoDup_app_remove_r in H.
Qed.

Lemma NoDup_map_eq {A B} (g : A -> B) (l : list A) (a b : A) :
  NoDup (map g l) -> In a l -> In b l -> g a = g b -> a = b.
Proof.
  induction l as [|z l IH]; [intros _ []|].
  cbn [map]. intros Hnd Ha Hb E.
  apply NoDup_cons_iff in Hnd as [Hz Hnd].
  destruct Ha as [->|Ha], Hb as [->|Hb]; auto.
  - exfalso. apply Hz. rewrite E. now apply in_map.
  - exfalso. apply Hz. rewrite <- E. now apply in_map.
Qed.

Lemma StronglySorted_app_cross {A} (R : A -> A -> Prop) (l1 l2 : list A) :
  StronglySorted R (l1 ++ l2) ->
  forall a b, In a l1 -> In b l2 -> R a b.
Proof.
  induction l1 as [|x l1 IH]; cbn [app]; intros H a b Ha Hb; [destruct Ha|].
  apply StronglySorted_inv in H as [Hs Hx].
  destruct Ha as [->|Ha]; [|now apply IH].
  rewrite Forall_forall in Hx. apply Hx. apply in_or_app. now right.
Qed.

(** The ranking of the fine ranker: forward ROA ascending whatever the
    first pass did, and EV/EBITDA descending among equal ROA when every
    candidate has an EV/EBITDA. *)
Lemma sorted_ROA_ascending (fine : list FineFundamental.t) :
  StronglySorted (fun a b => (Fine.ROA a <= Fine.ROA b)%Q) (Fine.sorted_ROA fine).
Proof.
  rewrite sorted_ROA_stable.
  apply (stable_sorted_sorted Fine.ROA false).
Qed.

Lemma sorted_ROA_ranked (fine : list FineFundamental.t) :
  Forall has_EV (Fine.filtered_ROA fine) ->
  StronglySorted roa_then_ev (Fine.sorted_ROA fine).
Proof.
  intro Hnum.
  rewrite sorted_ROA_stable, (sorted_EVToEBITDA_numbers fine Hnum).
  apply StronglySorted_weaken
    with (R := fun a b =>
                 (in_order Fine.ROA false a b /\ ~ (Fine.ROA a == Fine.ROA b)%Q)
                 \/ ((Fine.ROA a == Fine.ROA b)%Q
                     /\ in_order Fine.EV true a b)).
  - unfold roa_then_ev, in_order. intros a b [[H1 H2]|[H1 H2]].
    + left. lra.
    + right. split; assumption.
  - apply sorted_refine; [apply stable_sorted_sorted|].
    intro q. rewrite stable_sorted_filter.
    apply StronglySorted_filter. apply stable_sorted_sorted.
Qed.

Lemma sorted_ROA_perm (fine : list FineFundamental.t) :
  Permutation (Fine.filtered_ROA fine) (Fine.sorted_ROA fine).
Proof.
  unfold Fine.sorted_ROA, Fine.sorted_EVToEBITDA.
  etransitivity; apply sorted_perm.
Qed.

(** X4.  The fine ranker never pads and never drops without need: when at
    most the quota of candidates pass the screens and are not held, it
    returns the symbols of all of them and nothing else; on an empty input
    it returns the empty list. *)
Theorem fine_returns_all_when_few
        (st : State) (fine : list FineFundamental.t) :
  (List.length (filter (Fine.not_held st) (Fine.filtered_ROA fine))
   <= Z.to_nat NumberSecuritiesPerMonth)%nat ->
  Permutation
    (map FineFundamental.Symbol
         (filter (Fine.not_held st) (Fine.filtered_ROA fine)))
    (FineFundamentalFunction st fine)
  /\ FineFundamentalFunction st [] = [].
Proof.
  intro Hlen. split.
  - rewrite Fine_as_firstn.
    pose proof (filter_Permutation (Fine.not_held st) _ _ (sorted_ROA_perm fine))
      as Hperm.
    rewrite firstn_all2.
    + now apply Permutation_map.
    + rewrite <- (Permutation_length Hperm). exact Hlen.
  - rewrite Fine_as_firstn. cbn. now rewrite firstn_nil.
Qed.

(** X5.  With one snapshot per symbol in the input, the fine ranker returns
    no symbol twice. *)
Theorem fine_no_duplicates (st : State) (fine : list FineFundamental.t) :
  NoDup (map FineFundamental.Symbol fine) ->
  NoDup (FineFundamentalFunction st fine).
Proof.
  intro Hnd. rewrite Fine_as_firstn, <- firstn_map.
  apply NoDup_firstn, NoDup_map_filter.
  eapply Permutation_NoDup.
  - apply Permutation_map. apply sorted_ROA_perm.
  - unfold Fine.filtered_ROA. now repeat apply NoDup_map_filter.
Qed.

(** X6.  The fine ranker takes the front of the ranking.  With one snapshot
    per symbol, when a candidate that passes the screens and is not held is
    not returned, the quota is used up and the snapshot of every returned
    symbol has a forward ROA no higher than its own; when moreover every
    candidate has an EV/EBITDA (none is NaN), each of them ranks before it:
    lower forward ROA, or equal ROA and an EV/EBITDA at least as high. *)
Theorem fine_takes_lowest_roa
        (st : State) (fine : list FineFundamental.t) (x : FineFundamental.t) :
  NoDup (map FineFundamental.Symbol fine) ->
  In x (Fine.filtered_ROA fine) ->
  Fine.not_held st x = true ->
  ~ In (FineFundamental.Symbol x) (FineFundamentalFunction st fine) ->
  List.length (FineFundamentalFunction st fine)
  = Z.to_nat NumberSecuritiesPerMonth
  /\ forall y, In y fine ->
               In (FineFundamental.Symbol y) (FineFundamentalFunction st fine) ->
               (Fine.ROA y <= Fine.ROA x)%Q
               /\ (Forall has_EV (Fine.filtered_ROA fine) -> roa_then_ev y x).
Proof.
  intros Hnd Hx Hheld Hout.
  rewrite Fine_as_firstn in *.
  set (q := Z.to_nat NumberSecuritiesPerMonth) in *.
  set (cands := filter (Fine.not_held st) (Fine.sorted_ROA fine)) in *.
  assert (Hasc : StronglySorted (fun a b => (Fine.ROA a <= Fine.ROA b)%Q) cands).
  { apply StronglySorted_filter, sorted_ROA_ascending. }
  assert (Hxc : In x cands).
  { apply filter_In. split; [now apply sorted_ROA_In|exact Hheld]. }
  pose proof (firstn_skipn q cands) as Hsplit.
  rewrite <- Hsplit in Hxc, Hasc.
  apply in_app_or in Hxc as [Hxc|Hxc].
  { exfalso. apply Hout. now apply in_map. }
  split.
  - rewrite length_map, length_firstn. apply Nat.min_l.
    destruct (Nat.le_gt_cases q (List.length cands)) as [Hle|Hgt]; [exact Hle|].
    rewrite skipn_all2 in Hxc by lia. destruct Hxc.
  - intros y Hy Hsel.
    apply in_map_iff in Hsel as (z & Ez & Hz).
    assert (z = y) as ->.
    { apply (NoDup_map_eq FineFundamental.Symbol fine); auto.
      apply firstn_incl, filter_In in Hz as [Hz _].
      apply sorted_ROA_In, filtered_ROA_In in Hz. tauto. }
    split.
    + now apply (StronglySorted_app_cross _ _ _ Hasc).
    + intro Hnum.
      assert (Hsorted : StronglySorted roa_then_ev cands).
      { apply StronglySorted_filter, sorted_ROA_ranked, Hnum. }
      rewrite <- Hsplit in Hsorted.
      now apply (StronglySorted_app_cross _ _ _ Hsorted).
Qed.

(** ** Selling and buying *)

Lemma In_get_wf {V} (k : Symbol) (v : V) (d : Dict.dict V) :
  Dict.wf d -> In (k, v) d -> Dict.get k d = Some v.
Proof.
  unfold Dict.wf.
  induction d as [|[k' v'] d IH]; [intros _ []|].
  cbn [Dict.keys map fst Dict.get]. intros Hnd [E|Hin].
  - injection E as -> ->. now rewrite String.eqb_refl.
  - apply NoDup_cons_iff in Hnd as [Hk Hnd].
    destruct (String.eqb_spec k k') as [->|_]; [|now apply IH].
    exfalso. apply Hk. apply (in_map fst) in Hin. exact Hin.
Qed.

Lemma filter_due_kept (m : Z) (d : Dict.dict Z) :
  filter (due m) (filter (kept m) d) = [].
Proof.
  induction d as [|[k v] d IH]; [reflexivity|].
  cbn [filter]. unfold kept at 1, due. cbn [snd].
  destruct (v =? m) eqn:E; cbn [negb filter]; [exact IH|].
  unfold due in IH. cbn [snd]. now rewrite E.
Qed.

Lemma filter_kept_kept (m : Z) (d : Dict.dict Z) :
  filter (kept m) (filter (kept m) d) = filter (kept m) d.
Proof.
  induction d as [|[k v] d IH]; [reflexivity|].
  cbn [filter]. destruct (kept m (k, v)) eqn:E; [|exact IH].
  cbn [filter]. now rewrite E, IH.
Qed.

Lemma nothing_due (m : Z) (d : Dict.dict Z) :
  Dict.wf d ->
  (forall s, Dict.get s d <> Some m) ->
  filter (kept m) d = d /\ filter (due m) d = [].
Proof.
  intros Hwf Hno.
  assert (H : forall kv, In kv d -> (snd kv =? m) = false).
  { intros [k v] Hin. cbn [snd]. apply Z.eqb_neq. intros ->.
    apply (Hno k). now apply In_get_wf. }
  clear Hwf Hno.
  induction d as [|kv d IH]; [split; reflexivity|].
  cbn [filter]. unfold kept at 1, due at 1.
  rewrite (H kv (or_introl eq_refl)). cbn [negb].
  destruct IH as [-> ->]; [|split; reflexivity].
  intros x Hx. apply H. now right.
Qed.

Lemma liquidations_sell_buy (m tm : Z) (d : Dict.dict Z)
      (added : list Security.t) :
  liquidations (sell_log m d ++ buy_log tm added) = sell_keys m d.
Proof.
  unfold liquidations, sell_log. rewrite !flat_map_app.
  assert (H1 : forall ks,
             flat_map (fun a => match a with Liquidate s => [s] | _ => [] end)
                      (map Liquidate ks) = ks).
  { induction ks as [|k ks IH]; cbn; [reflexivity|now rewrite IH]. }
  assert (H2 : forall ks,
             flat_map (fun a => match a with Liquidate s => [s] | _ => [] end)
                      (map LedgerPop ks) = []).
  { induction ks as [|k ks IH]; cbn; [reflexivity|exact IH]. }
  assert (H3 : flat_map (fun a => match a with Liquidate s => [s] | _ => [] end)
                        (buy_log tm added) = []).
  { unfold buy_log. induction added as [|a added IH]; cbn; [reflexivity|exact IH]. }
  now rewrite H1, H2, H3, !app_nil_r.
Qed.

Lemma acquisitions_sell_buy (m tm : Z) (d : Dict.dict Z)
      (added : list Security.t) :
  acquisitions (sell_log m d ++ buy_log tm added)
  = map Security.Symbol added.
Proof.
  unfold acquisitions, sell_log. rewrite !flat_map_app.
  assert (H1 : forall ks,
             flat_map (fun a => match a with SetHoldings s _ _ => [s] | _ => [] end)
                      (map Liquidate ks) = []).
  { induction ks as [|k ks IH]; cbn; [reflexivity|exact IH]. }
  assert (H2 : forall ks,
             flat_map (fun a => match a with SetHoldings s _ _ => [s] | _ => [] end)
                      (map LedgerPop ks) = []).
  { induction ks as [|k ks IH]; cbn; [reflexivity|exact IH]. }
  rewrite H1, H2. cbn [app]. unfold buy_log.
  induction added as [|a added IH]; cbn; [reflexivity|now rewrite IH].
Qed.

Lemma sell_keys_NoDup (m : Z) (d : Dict.dict Z) :
  Dict.wf d -> NoDup (sell_keys m d).
Proof. intro H. now apply wf_filter. Qed.

(** X7.  On a ledger without repeated keys the sell step returns, and
    running it again for the same month changes nothing and sends nothing;
    when no entry is stored under the month, the first run already is such a
    no-op. *)
Theorem sell_securities_idempotent (m : Z) (st : State) :
  Dict.wf (purchased_securities st) ->
  exists st1 log1,
    sell_securities m st = Ok tt st1 log1
    /\ sell_securities m st1 = Ok tt st1 []
    /\ ((forall s, Dict.get s (purchased_securities st) <> Some m) ->
        st1 = st /\ log1 = []).
Proof.
  intro Hwf. eexists _, _.
  split; [now apply sell_securities_spec|]. split.
  - rewrite sell_securities_spec
      by (cbn [with_ledger purchased_securities]; now apply wf_filter).
    cbn [with_ledger purchased_securities lastMonth month].
    unfold sell_log, sell_keys.
    now rewrite filter_kept_kept, filter_due_kept.
  - intro Hno. destruct (nothing_due m _ Hwf Hno) as [Ek Ed].
    unfold sell_log, sell_keys. rewrite Ek, Ed.
    split; [apply with_ledger_same|reflexivity].
Qed.

(** X8.  The sell step liquidates in ledger order: it sends one liquidation
    per entry stored under the month, in the order the entries have in the
    ledger (the order of acquisition), no symbol twice; the other entries
    stay, in their order, and [lastMonth] and [month] stay. *)
Theorem sell_securities_in_ledger_order (m : Z) (st : State) :
  Dict.wf (purchased_securities st) ->
  exists st' log,
    sell_securities m st = Ok tt st' log
    /\ liquidations log
       = map fst (filter (fun kv => snd kv =? m)
                         (Dict.items (purchased_securities st)))
    /\ NoDup (liquidations log)
    /\ acquisitions log = []
    /\ purchased_securities st'
       = filter (fun kv => negb (snd kv =? m)) (purchased_securities st)
    /\ lastMonth st' = lastMonth st
    /\ month st' = month st.
Proof.
  intro Hwf. eexists _, _.
  split; [now apply sell_securities_spec|].
  pose proof (liquidations_sell_buy m 0 (purchased_securities st) []) as Hl.
  pose proof (acquisitions_sell_buy m 0 (purchased_securities st) []) as Ha.
  cbn [buy_log flat_map map] in Hl, Ha. rewrite app_nil_r in Hl, Ha.
  rewrite Hl, Ha.
  split; [reflexivity|].
  split; [now apply sell_keys_NoDup|].
  repeat split.
Qed.

(** X9.  What the handler leaves in the ledger.  With [month] defined and a
    ledger without repeated keys the handler returns; afterwards every added
    symbol is stored under the clock's month, also when it was held or just
    sold; any other symbol is gone if it was stored under [month] and keeps
    its entry otherwise.  One acquisition intent is sent per added security,
    in their order, and [lastMonth] and [month] stay. *)
Theorem handler_ledger_lookup
        (env : Env) (changes : SecurityChanges) (st : State) (m : Z) :
  month st = Some m ->
  Dict.wf (purchased_securities st) ->
  exists st' log,
    OnSecuritiesChanged env changes st = Ok tt st' log
    /\ Dict.wf (purchased_securities st')
    /\ lastMonth st' = lastMonth st
    /\ month st' = month st
    /\ acquisitions log = map Security.Symbol (AddedSecurities changes)
    /\ forall s,
         Dict.get s (purchased_securities st')
         = if in_dec string_dec s (map Security.Symbol (AddedSecurities changes))
           then Some (Time_month env)
           else match Dict.get s (purchased_securities st) with
                | Some v => if v =? m then None else Some v
                | None => None
                end.
Proof.
  intros Hm Hwf. eexists _, _.
  split; [exact (OnSecuritiesChanged_spec env changes st m Hm Hwf)|].
  cbn [with_ledger purchased_securities lastMonth month].
  split; [now apply wf_buy_ledger, wf_filter|].
  split; [reflexivity|]. split; [reflexivity|].
  split; [apply acquisitions_sell_buy|].
  intro s. rewrite get_buy_ledger, get_filter_kept by exact Hwf. reflexivity.
Qed.

(** ** The daily step and runs of it *)

(** A daily step either leaves the ledger alone and sends nothing, or is a
    cycle: a sale for the clock's month followed by the purchase of the
    fine ranker's symbols. *)
Lemma tick_cases (tk : Tick) (st : State) :
  Dict.wf (purchased_securities st) ->
  exists st' log,
    tick tk st = Ok tt st' log
    /\ ((log = [] /\ purchased_securities st' = purchased_securities st
         /\ (IsWarmingUp (tick_env tk) = false ->
             lastMonth st' = Time_month (tick_env tk)))
        \/ (IsWarmingUp (tick_env tk) = false
            /\ lastMonth st' = Time_month (tick_env tk)
            /\ purchased_securities st'
               = buy_ledger (Time_month (tick_env tk)) (tick_added tk st)
                   (filter (kept (Time_month (tick_env tk)))
                           (purchased_securities st))
            /\ log = sell_log (Time_month (tick_env tk))
                              (purchased_securities st)
                     ++ buy_log (Time_month (tick_env tk)) (tick_added tk st))).
Proof.
  intro Hwf.
  destruct (IsWarmingUp (tick_env tk)) eqn:Hw.
  { exists st, []. rewrite tick_warming_up by exact Hw.
    split; [reflexivity|]. left. repeat split. discriminate. }
  destruct (Z.eq_dec (Time_month (tick_env tk)) (lastMonth st)) as [Hm|Hm].
  { eexists _, []. rewrite tick_same_month by assumption.
    split; [reflexivity|]. left. cbn. auto. }
  eexists _, _. split; [now apply tick_cycle|].
  right. cbn. auto.
Qed.

(** X10.  A daily step sends at most the quota of acquisition intents, none
    of them for a symbol that was in the ledger when the step began, and
    stores each acquired symbol under the clock's month; it liquidates only
    symbols that were stored under that month. *)
Theorem tick_acquires_new_symbols_only (tk : Tick) (st : State) :
  Dict.wf (purchased_securities st) ->
  exists st' log,
    tick tk st = Ok tt st' log
    /\ (List.length (acquisitions log)
        <= Z.to_nat NumberSecuritiesPerMonth)%nat
    /\ (forall s, In s (acquisitions log) ->
                  ~ In s (Dict.keys (purchased_securities st))
                  /\ Dict.get s (purchased_securities st')
                     = Some (Time_month (tick_env tk)))
    /\ (forall s, In s (liquidations log) ->
                  Dict.get s (purchased_securities st)
                  = Some (Time_month (tick_env tk))).
Proof.
  intro Hwf.
  destruct (tick_cases tk st Hwf)
    as (st' & log & Htick & [(-> & _)|(_ & _ & Hd & ->)]).
  { exists st', []. split; [exact Htick|].
    cbn. repeat split; try lia; intros s []. }
  eexists st', _. split; [exact Htick|].
  rewrite acquisitions_sell_buy, liquidations_sell_buy, tick_added_symbols.
  split; [|split].
  - unfold FineFundamentalFunction. apply slice_to_length.
    rewrite NumberSecuritiesPerMonth_eq. lia.
  - intros s Hs. split; [now apply Fine_not_held in Hs|].
    rewrite Hd, get_buy_ledger, tick_added_symbols.
    destruct (in_dec string_dec s _); [reflexivity|contradiction].
  - intros s Hs. now apply sell_keys_In in Hs.
Qed.

(** X11.  One rotation per month: after a daily step made after the
    warm-up, a further step whose clock shows the same month sends nothing
    and leaves the ledger and the last processed month as they are. *)
Theorem one_cycle_per_month (tk1 tk2 : Tick) (st : State) :
  Dict.wf (purchased_securities st) ->
  IsWarmingUp (tick_env tk1) = false ->
  Time_month (tick_env tk2) = Time_month (tick_env tk1) ->
  exists st1 log1 st2,
    tick tk1 st = Ok tt st1 log1
    /\ tick tk2 st1 = Ok tt st2 []
    /\ purchased_securities st2 = purchased_securities st1
    /\ lastMonth st2 = lastMonth st1.
Proof.
  intros Hwf Hw1 Hm.
  destruct (tick_cases tk1 st Hwf) as (st1 & log1 & Htick & Hcases).
  assert (Hlast : lastMonth st1 = Time_month (tick_env tk1)).
  { destruct Hcases as [(_ & _ & H)|(_ & H & _)]; auto. }
  exists st1, log1.
  destruct (IsWarmingUp (tick_env tk2)) eqn:Hw2.
  - exists st1. split; [exact Htick|].
    rewrite (tick_warming_up tk2 st1 Hw2). auto.
  - eexists. split; [exact Htick|].
    rewrite (tick_same_month tk2 st1 Hw2) by congruence.
    split; [reflexivity|]. cbn. auto.
Qed.

(** X12.  A run of daily steps made during the warm-up does nothing: it
    returns the state it started from and sends no intent. *)
Theorem warm_up_run_is_noop (tks : list Tick) (st : State) :
  Forall warming_up tks ->
  run_ticks tks st = Ok tt st [].
Proof.
  unfold run_ticks. induction 1 as [|tk tks Hw _ IH]; cbn [for_each].
  - reflexivity.
  - unfold bind. rewrite (tick_warming_up tk st Hw), IH. reflexivity.
Qed.

(** *** The size of the ledger *)

Lemma entries_setitem (v tm : Z) (k : Symbol) (d : Dict.dict Z) :
  (entries_of_month v (Dict.setitem k tm d)
   <= entries_of_month v d + (if Z.eqb v tm then 1 else 0))%nat.
Proof.
  unfold entries_of_month, due.
  induction d as [|[k' v'] d IH]; cbn [Dict.setitem filter snd].
  - rewrite (Z.eqb_sym tm v).
    destruct (v =? tm); cbn; lia.
  - destruct (String.eqb k k'); cbn [filter snd].
    + rewrite (Z.eqb_sym tm v).
      destruct (v =? tm), (v' =? v); cbn [List.length]; lia.
    + destruct (v' =? v); cbn [List.length]; lia.
Qed.

Lemma entries_buy_ledger (v tm : Z) (added : list Security.t) (d : Dict.dict Z) :
  (entries_of_month v (buy_ledger tm added d)
   <= entries_of_month v d
      + (if Z.eqb v tm then List.length added else 0))%nat.
Proof.
  revert d. unfold buy_ledger.
  induction added as [|a added IH]; intro d; cbn [fold_left List.length].
  - destruct (v =? tm); lia.
  - specialize (IH (Dict.setitem (Security.Symbol a) tm d)).
    pose proof (entries_setitem v tm (Security.Symbol a) d).
    destruct (v =? tm); lia.
Qed.

Lemma entries_filter_kept (v tm : Z) (d : Dict.dict Z) :
  (entries_of_month v (filter (kept tm) d) <= entries_of_month v d)%nat
  /\ entries_of_month tm (filter (kept tm) d) = 0%nat.
Proof.
  unfold entries_of_month. split.
  - induction d as [|kv d IH]; cbn [filter]; [lia|].
    destruct (kept tm kv); cbn [filter]; destruct (due v kv);
      cbn [List.length]; lia.
  - now rewrite filter_due_kept.
Qed.

Lemma In_setitem (k0 : Symbol) (tm : Z) (d : Dict.dict Z) (k : Symbol) (v : Z) :
  In (k, v) (Dict.setitem k0 tm d) -> v = tm \/ In (k, v) d.
Proof.
  induction d as [|[k' v'] d IH]; cbn [Dict.setitem In].
  - intros [E|[]]. left. congruence.
  - destruct (String.eqb k0 k'); cbn [In].
    + intros [E|H]; [left; congruence|auto].
    + intros [E|H]; [auto|]. destruct (IH H); auto.
Qed.

Lemma In_buy_ledger (tm : Z) (added : list Security.t) (d : Dict.dict Z)
      (k : Symbol) (v : Z) :
  In (k, v) (buy_ledger tm added d) -> v = tm \/ In (k, v) d.
Proof.
  revert d. unfold buy_ledger.
  induction added as [|a added IH]; intro d; cbn [fold_left]; [auto|].
  intro H. apply IH in H as [H|H]; [auto|]. now apply In_setitem in H.
Qed.

Lemma filter_split_length {A} (f : A -> bool) (l : list A) :
  (List.length (filter f l) + List.length (filter (fun x => negb (f x)) l)
   = List.length l)%nat.
Proof.
  induction l as [|x l IH]; cbn [filter]; [reflexivity|].
  destruct (f x); cbn [negb List.length]; lia.
Qed.

(** A ledger with at most [n] entries per month and months among [vs] has
    at most [n] entries for each of them. *)
Lemma length_by_month (n : nat) (vs : list Z) (d : Dict.dict Z) :
  (forall v, (entries_of_month v d <= n)%nat) ->
  (forall k v, In (k, v) d -> In v vs) ->
  (List.length d <= n * List.length vs)%nat.
Proof.
  revert d. induction vs as [|v0 vs IH]; intros d Hn Hin.
  - destruct d as [|[k v] d]; [cbn; lia|].
    destruct (Hin k v (or_introl eq_refl)).
  - rewrite <- (filter_split_length (due v0) d).
    fold (entries_of_month v0 d). fold (kept v0).
    change (fun x => negb (due v0 x)) with (kept v0).
    specialize (Hn v0) as Hn0.
    assert (List.length (filter (kept v0) d) <= n * List.length vs)%nat.
    { apply IH.
      - intro v. pose proof (proj1 (entries_filter_kept v v0 d)).
        specialize (Hn v). lia.
      - intros k v Hkv. apply filter_In in Hkv as [Hkv Hk].
        destruct (Hin k v Hkv) as [<-|H]; [|exact H].
        unfold kept in Hk. cbn [snd] in Hk.
        now rewrite Z.eqb_refl in Hk. }
    cbn [List.length]. lia.
Qed.

Lemma tick_within_slots (tk : Tick) (st : State) :
  calendar_month tk ->
  ledger_within_slots (purchased_securities st) ->
  exists st' log,
    tick tk st = Ok tt st' log
    /\ ledger_within_slots (purchased_securities st').
Proof.
  intros Hcal (Hwf & Hn & Hv).
  destruct (tick_cases tk st Hwf)
    as (st' & log & Htick & [(_ & Hd & _)|(_ & _ & Hd & _)]);
    exists st', log; (split; [exact Htick|]); rewrite Hd.
  { exact (conj Hwf (conj Hn Hv)). }
  set (tm := Time_month (tick_env tk)) in *.
  split; [now apply wf_buy_ledger, wf_filter|]. split.
  - intro v.
    pose proof (entries_buy_ledger v tm (tick_added tk st)
                  (filter (kept tm) (purchased_securities st))) as Hb.
    destruct (entries_filter_kept v tm (purchased_securities st)) as [Hk H0].
    assert (Hq : (List.length (tick_added tk st) <= 2)%nat).
    { unfold tick_added. rewrite length_map.
      pose proof (slice_to_length NumberSecuritiesPerMonth
                    (map FineFundamental.Symbol
                         (filter (Fine.not_held st)
                                 (Fine.sorted_ROA (tick_fine tk))))) as H.
      rewrite NumberSecuritiesPerMonth_eq in H.
      unfold FineFundamentalFunction. rewrite NumberSecuritiesPerMonth_eq.
      apply H. lia. }
    specialize (Hn v).
    destruct (Z.eqb_spec v tm) as [->|_]; lia.
  - intros k v Hkv. apply In_buy_ledger in Hkv as [->|Hkv]; [exact Hcal|].
    apply filter_In in Hkv as [Hkv _]. eauto.
Qed.

(** X13.  The portfolio never outgrows its slots.  Along any run of daily
    steps of a host whose clock shows calendar months, started from
    [Initialize], the ledger holds at most [NumberSecuritiesPerMonth]
    symbols bought in any one month of the year and at most
    [NumberSecurtitiesPortfolio] symbols in all. *)
Theorem portfolio_slot_bound (tks : list Tick) :
  Forall calendar_month tks ->
  exists st log,
    run_ticks tks Initialize = Ok tt st log
    /\ (forall v, (entries_of_month v (purchased_securities st)
                   <= Z.to_nat NumberSecuritiesPerMonth)%nat)
    /\ (List.length (purchased_securities st)
        <= Z.to_nat NumberSecurtitiesPortfolio)%nat.
Proof.
  intro Hcal.
  assert (Hrun : forall st,
             ledger_within_slots (purchased_securities st) ->
             exists st' log,
               run_ticks tks st = Ok tt st' log
               /\ ledger_within_slots (purchased_securities st')).
  { unfold run_ticks.
    induction Hcal as [|tk tks Htk _ IH]; intros st Hinv; cbn [for_each].
    - exists st, []. auto.
    - destruct (tick_within_slots tk st Htk Hinv) as (st1 & l1 & H1 & Hinv1).
      destruct (IH st1 Hinv1) as (st2 & l2 & H2 & Hinv2).
      exists st2, (l1 ++ l2). split; [now apply bind_Ok with tt st1|exact Hinv2]. }
  destruct (Hrun Initialize) as (st & log & H & Hwf & Hn & Hv).
  { split; [constructor|]. split; [intro v; cbn; lia|intros k v []]. }
  exists st, log. split; [exact H|].
  rewrite NumberSecuritiesPerMonth_eq. split; [exact Hn|].
  change (Z.to_nat NumberSecurtitiesPortfolio)
    with (2 * List.length calendar_months)%nat.
  apply length_by_month; [exact Hn|].
  intros k v Hkv. specialize (Hv k v Hkv). unfold calendar_months.
  cbn [In]. lia.
Qed.

(** *** Liquidations follow acquisitions *)

Lemma liquidates_open_app (held : list Symbol) (l1 l2 : list Action) :
  liquidates_open held (l1 ++ l2)
  <-> liquidates_open held l1
      /\ liquidates_open (fold_left apply_intent l1 held) l2.
Proof.
  revert held. induction l1 as [|a l1 IH]; intro held;
    cbn [app liquidates_open fold_left].
  - tauto.
  - rewrite IH. tauto.
Qed.

Lemma liquidates_open_equiv (h1 h2 : list Symbol) (log : list Action) :
  (forall s, In s h1 <-> In s h2) ->
  liquidates_open h1 log -> liquidates_open h2 log.
Proof.
  revert h1 h2. induction log as [|a log IH]; intros h1 h2 Heq;
    cbn [liquidates_open]; [auto|].
  intros [Ha Hrest]. split.
  - destruct a; auto. now apply Heq.
  - apply (IH (apply_intent h1 a)); [|exact Hrest].
    intro s. rewrite !In_apply_intent.
    destruct a; rewrite Heq; reflexivity.
Qed.

Lemma liquidates_open_sell (ks : list Symbol) (held : list Symbol) :
  NoDup ks -> incl ks held ->
  liquidates_open held (map Liquidate ks).
Proof.
  revert held. induction ks as [|k ks IH]; intros held Hnd Hin;
    cbn [map liquidates_open]; [exact I|].
  apply NoDup_cons_iff in Hnd as [Hk Hnd].
  split; [apply Hin; now left|].
  apply IH; [exact Hnd|].
  intros s Hs. apply In_apply_intent. split.
  - intros ->. contradiction.
  - apply Hin. now right.
Qed.

Lemma liquidates_open_none (held : list Symbol) (log : list Action) :
  liquidations log = [] -> liquidates_open held log.
Proof.
  revert held. induction log as [|a log IH]; intro held;
    cbn [liquidates_open]; [auto|].
  unfold liquidations. cbn [flat_map]. intro H.
  apply app_eq_nil in H as [Ha Hl].
  split; [destruct a; try exact I; discriminate|].
  now apply IH.
Qed.

Lemma tick_liquidates_open (tk : Tick) (st : State) (held : list Symbol) :
  Dict.wf (purchased_securities st) ->
  (forall s, In s held <-> In s (Dict.keys (purchased_securities st))) ->
  exists st' log,
    tick tk st = Ok tt st' log
    /\ Dict.wf (purchased_securities st')
    /\ (forall s, In s (fold_left apply_intent log held)
                  <-> In s (Dict.keys (purchased_securities st')))
    /\ liquidates_open held log.
Proof.
  intros Hwf Hheld.
  destruct (tick_ledger tk st held Hwf Hheld) as (st' & log & Ht & Hwf' & Hf).
  exists st', log. repeat split; auto; try apply Hf.
  destruct (tick_cases tk st Hwf)
    as (st'' & log' & Ht' & [(E & _)|(_ & _ & _ & E)]);
    rewrite Ht in Ht'; injection Ht' as _ <-; rewrite E.
  - exact I.
  - unfold sell_log. rewrite <- app_assoc.
    apply liquidates_open_app. split.
    + apply liquidates_open_sell; [now apply sell_keys_NoDup|].
      intros s Hs. apply Hheld.
      apply sell_keys_In in Hs; [|exact Hwf].
      now apply get_Some_keys in Hs.
    + apply liquidates_open_none.
      pose proof (liquidations_sell_buy 0 (Time_month (tick_env tk)) []
                    (tick_added tk st)) as H.
      unfold liquidations in *. rewrite flat_map_app.
      cbn [sell_log sell_keys filter Dict.keys map app] in H.
      rewrite H.
      generalize (sell_keys (Time_month (tick_env tk))
                            (purchased_securities st)).
      intro ks. induction ks as [|k ks IH]; [reflexivity|exact IH].
Qed.

(** X14.  Along any run of daily steps from [Initialize], every liquidation
    intent is sent for a position that is open at that moment: the symbol
    has been acquired earlier in the run and not liquidated since.  No
    position is liquidated twice and nothing is liquidated that was never
    bought. *)
Theorem liquidations_follow_acquisitions (tks : list Tick) :
  exists st log,
    run_ticks tks Initialize = Ok tt st log
    /\ liquidates_open [] log.
Proof.
  assert (Hrun : forall st held,
             Dict.wf (purchased_securities st) ->
             (forall s, In s held <-> In s (Dict.keys (purchased_securities st))) ->
             exists st' log,
               run_ticks tks st = Ok tt st' log
               /\ liquidates_open held log).
  { unfold run_ticks.
    induction tks as [|tk tks IH]; intros st held Hwf Hheld; cbn [for_each].
    - exists st, []. split; [reflexivity|exact I].
    - destruct (tick_liquidates_open tk st held Hwf Hheld)
        as (st1 & l1 & H1 & Hwf1 & Hh1 & Ho1).
      destruct (IH st1 _ Hwf1 Hh1) as (st2 & l2 & H2 & Ho2).
      exists st2, (l1 ++ l2). split; [now apply bind_Ok with tt st1|].
      apply liquidates_open_app. auto. }
  apply Hrun; [constructor|intro s; reflexivity].
Qed.

End Properties.

(* ================================================================== *)
(** * The properties on the worked scenario

    The scenario has no list that the sort cannot order but the one of
    [example_fine_nan], which is in order as it stands; the results below
    are the same for every sort. *)

#[local] Existing Instance example_timsort.

(** The ranker on three candidates of equal ROA of which the second has no
    EV/EBITDA: whatever the sort does elsewhere, both passes leave the list
    as it is, and A is returned ahead of B, whose EV/EBITDA is higher. *)
Lemma fine_ranker_with_missing_EV (TS : Timsort) :
  map FineFundamental.Symbol (Fine.sorted_ROA (H := TS) example_fine_nan)
  = ["A"; "N"; "B"]%string
  /\ FineFundamentalFunction (H := TS) Initialize example_fine_nan
     = ["A"; "N"]%string.
Proof. split; vm_compute; reflexivity. Qed.

(** C2, as the specification states it, fails: with a NaN among the
    EV/EBITDA values the ranker's order is not the composition of the two
    stable sorts. *)
Lemma sort_composition_fails_with_nan :
  ~ (forall (TS : Timsort) (st : State)
            (fine by_ev ranked : list FineFundamental.t),
        stable_sort_of Fine.EV true (Fine.filtered_ROA fine) by_ev ->
        stable_sort_of Fine.ROA false by_ev ranked ->
        FineFundamentalFunction st fine
        = map FineFundamental.Symbol
              (firstn (Z.to_nat NumberSecuritiesPerMonth)
                      (filter (Fine.not_held st) ranked))
        /\ ranked = Fine.sorted_ROA fine
        /\ StronglySorted roa_then_ev ranked
        /\ StronglySorted roa_then_ev
             (firstn (Z.to_nat NumberSecuritiesPerMonth)
                     (filter (Fine.not_held st) ranked))).
Proof.
  intro H.
  destruct (H example_timsort Initialize example_fine_nan
              (stable_sorted Fine.EV true (Fine.filtered_ROA example_fine_nan))
              (stable_sorted Fine.ROA false
                 (stable_sorted Fine.EV true
                    (Fine.filtered_ROA example_fine_nan))))
    as (_ & E & _).
  - apply stable_sorted_stable.
  - apply stable_sorted_stable.
  - apply (f_equal (map FineFundamental.Symbol)) in E.
    vm_compute in E. discriminate E.
Qed.

Lemma sort_composition_witness :
  Forall has_EV (Fine.filtered_ROA example_fine)
  /\ stable_sort_of Fine.EV true (Fine.filtered_ROA example_fine)
                    (Fine.sorted_EVToEBITDA example_fine)
  /\ stable_sort_of Fine.ROA false (Fine.sorted_EVToEBITDA example_fine)
                    (Fine.sorted_ROA example_fine)
  /\ map FineFundamental.Symbol (Fine.sorted_ROA example_fine)
     = ["E"; "B"; "D"; "A"]%string
  /\ FineFundamentalFunction Initialize example_fine = ["E"; "B"]%string.
Proof.
  assert (Hnum : Forall has_EV (Fine.filtered_ROA example_fine)).
  { vm_compute. repeat constructor; discriminate. }
  assert (Hev : stable_sort_of Fine.EV true (Fine.filtered_ROA example_fine)
                               (Fine.sorted_EVToEBITDA example_fine)).
  { rewrite (sorted_EVToEBITDA_numbers example_fine Hnum).
    apply stable_sorted_stable. }
  assert (Hroa : stable_sort_of Fine.ROA false
                                (Fine.sorted_EVToEBITDA example_fine)
                                (Fine.sorted_ROA example_fine)).
  { rewrite sorted_ROA_stable. apply stable_sorted_stable. }
  split; [exact Hnum|]. split; [exact Hev|]. split; [exact Hroa|].
  split; [vm_compute; reflexivity|].
  destruct (sort_composition Initialize example_fine _ _ Hnum Hev Hroa)
    as [E _].
  rewrite E. vm_compute. reflexivity.
Defined.

Lemma acquisition_weight_witness :
  exists st' log,
    OnSecuritiesChanged example_env example_changes example_state
    = Ok tt st' log
    /\ In (SetHoldings "X" percent_holding false) log
    /\ (1 # 24 < PyFloat.to_Q percent_holding)%Q.
Proof.
  assert (Hrun : OnSecuritiesChanged example_env example_changes example_state
                 = Ok tt
                      (with_ledger [("D", 2); ("X", 1)]%string example_state)
                      [Liquidate "E"; Liquidate "B";
                       LedgerPop "E"; LedgerPop "B";
                       SetHoldings "X" percent_holding false;
                       LedgerStore "X" 1]).
  { vm_compute. reflexivity. }
  assert (Hin : In (SetHoldings "X" percent_holding false)
                   [Liquidate "E"; Liquidate "B";
                    LedgerPop "E"; LedgerPop "B";
                    SetHoldings "X" percent_holding false;
                    LedgerStore "X" 1]).
  { do 4 right. left. reflexivity. }
  eexists _, _. split; [exact Hrun|]. split; [exact Hin|].
  apply (acquisition_weight _ _ _ _ _ _ _ _ Hrun Hin).
Defined.

Lemma coarse_idempotent_within_month_witness :
  IsWarmingUp example_env = false
  /\ lastMonth Initialize <> Time_month example_env
  /\ exists st1,
       CoarseFilterFunction example_env example_coarse Initialize
       = Ok (Selected ["D"; "E"; "A"; "B"; "C"]%string) st1 []
       /\ CoarseFilterFunction example_env [] st1 = Ok Unchanged st1 []
       /\ lastMonth st1 = 1.
Proof.
  assert (Hw : IsWarmingUp example_env = false) by reflexivity.
  assert (Hm : lastMonth Initialize <> Time_month example_env)
    by (cbn; lia).
  split; [exact Hw|]. split; [exact Hm|].
  destruct (coarse_idempotent_within_month example_env example_coarse []
                                           Initialize)
    as (r1 & st1 & H1 & H2 & H3 & H4).
  exists st1. rewrite (H4 Hw Hm) in H1.
  split; [exact H1|]. split; [exact H2|]. exact (H3 Hw).
Defined.

Lemma coarse_warm_up_noop_witness :
  IsWarmingUp example_warm_up = true
  /\ CoarseFilterFunction example_warm_up example_coarse example_state
     = Ok Unchanged example_state []
  /\ tick {| tick_env := example_warm_up;
             tick_coarse := example_coarse;
             tick_fine := example_fine |} example_state
     = Ok tt example_state [].
Proof.
  split; [reflexivity|].
  apply (coarse_warm_up_noop example_warm_up example_coarse example_fine
                             example_state).
  reflexivity.
Defined.

Lemma sell_before_buy_witness :
  exists st' log,
    OnSecuritiesChanged example_env example_changes example_state
    = Ok tt st' log
    /\ exists m st_mid sells buys,
         month example_state = Some m
         /\ sell_securities m example_state = Ok tt st_mid sells
         /\ log = sells ++ buys
         /\ Forall is_sell_action sells
         /\ Forall is_buy_action buys.
Proof.
  assert (Hrun : OnSecuritiesChanged example_env example_changes example_state
                 = Ok tt
                      (with_ledger [("D", 2); ("X", 1)]%string example_state)
                      [Liquidate "E"; Liquidate "B";
                       LedgerPop "E"; LedgerPop "B";
                       SetHoldings "X" percent_holding false;
                       LedgerStore "X" 1]).
  { vm_compute. reflexivity. }
  eexists _, _. split; [exact Hrun|].
  apply (sell_before_buy _ _ _ _ _ Hrun).
Defined.

Lemma fine_market_cap_floor_witness :
  NoDup (map FineFundamental.Symbol example_fine)
  /\ In example_small_cap example_fine
  /\ (FineFundamental.MarketCap example_small_cap == 40000000)%Q
  /\ ~ (50000000 < FineFundamental.MarketCap example_small_cap)%Q
  /\ ~ In (FineFundamental.Symbol example_small_cap)
          (FineFundamentalFunction Initialize example_fine).
Proof.
  assert (Hnd : NoDup (map FineFundamental.Symbol example_fine)).
  { cbn. repeat (constructor; [cbn; intuition discriminate|]). constructor. }
  assert (Hin : In example_small_cap example_fine).
  { right. right. left. reflexivity. }
  assert (Hcap : ~ (50000000 < FineFundamental.MarketCap example_small_cap)%Q).
  { intro H. vm_compute in H. discriminate. }
  split; [exact Hnd|]. split; [exact Hin|].
  split; [reflexivity|]. split; [exact Hcap|].
  exact (proj2 (fine_market_cap_floor Initialize example_fine)
               example_small_cap Hnd Hin Hcap).
Defined.

Lemma handler_defined_iff_active_coarse_witness :
  exists st log,
    run_calls example_calls Initialize = Ok tt st log
    /\ Exists active_coarse example_calls
    /\ exists st' log',
         OnSecuritiesChanged example_env example_changes st = Ok tt st' log'.
Proof.
  assert (Hrun : run_calls example_calls Initialize
                 = Ok tt {| lastMonth := 1; month := Some 1;
                            purchased_securities := [] |} []).
  { vm_compute. reflexivity. }
  assert (Hex : Exists active_coarse example_calls).
  { apply Exists_cons_tl, Exists_cons_hd. reflexivity. }
  eexists _, _. split; [exact Hrun|]. split; [exact Hex|].
  apply (proj1 (handler_defined_iff_active_coarse
                  example_calls _ _ example_env example_changes Hrun)).
  exact Hex.
Defined.

Lemma horizon_enforcement_witness :
  Dict.wf (purchased_securities Initialize)
  /\ lastMonth Initialize <> month_of 0
  /\ exists trace st0 log0 st12 log12,
       trace_ticks (monthly_ticks 0 example_inputs) Initialize = Some trace
       /\ nth_error trace 0 = Some (st0, log0)
       /\ In (SetHoldings "E" percent_holding false) log0
       /\ nth_error trace 12 = Some (st12, log12)
       /\ In (Liquidate "E") log12
       /\ Dict.get "E" (purchased_securities st12) = None.
Proof.
  assert (Hwf : Dict.wf (purchased_securities Initialize)) by constructor.
  assert (Hlast : lastMonth Initialize <> month_of 0) by (cbn; lia).
  split; [exact Hwf|]. split; [exact Hlast|].
  destruct (horizon_enforcement 0 example_inputs Initialize Hwf Hlast)
    as [(trace & Htrace & Hlen & Hprop) _].
  destruct trace as [|[st0 log0] trace]; [discriminate Hlen|].
  destruct (nth_error ((st0, log0) :: trace) 12) as [[st12 log12]|] eqn:H12.
  - assert (Hbuy : In (SetHoldings "E" percent_holding false) log0).
    { rewrite percent_holding_eq. vm_compute in Htrace.
      injection Htrace as <- <- _. left. reflexivity. }
    destruct (Hprop 0%nat st0 log0 "E"%string percent_holding false
                    eq_refl Hbuy) as [_ Hliq].
    destruct (Hliq st12 log12 H12) as (H1 & _ & H3).
    exists ((st0, log0) :: trace), st0, log0, st12, log12.
    repeat split; assumption.
  - exfalso. apply nth_error_None in H12. rewrite Hlen in H12.
    cbn in H12. lia.
Defined.

(* ================================================================== *)
(** * The further properties on the worked scenario *)

Lemma coarse_selects_by_dollar_volume_witness :
  IsWarmingUp example_env = false
  /\ Time_month example_env <> lastMonth Initialize
  /\ Forall has_volume
            (filter CoarseFundamental.HasFundamentalData example_coarse)
  /\ exists l st',
       CoarseFilterFunction example_env example_coarse Initialize
       = Ok (Selected (map CoarseFundamental.Symbol l)) st' []
       /\ map CoarseFundamental.Symbol l = ["D"; "E"; "A"; "B"; "C"]%string
       /\ lastMonth st' = 1.
Proof.
  assert (Hw : IsWarmingUp example_env = false) by reflexivity.
  assert (Hm : Time_month example_env <> lastMonth Initialize) by (cbn; lia).
  assert (Hnum : Forall has_volume
                        (filter CoarseFundamental.HasFundamentalData
                                example_coarse)).
  { vm_compute. repeat constructor; discriminate. }
  split; [exact Hw|]. split; [exact Hm|]. split; [exact Hnum|].
  destruct (coarse_selects_by_dollar_volume example_env example_coarse
                                            Initialize Hw Hm)
    as (l & st' & Hrun & _ & Hsort & _ & Hlast & _).
  exists l, st'. split; [exact Hrun|]. split; [|exact Hlast].
  rewrite (stable_sort_unique _ _ _ _ _ (Hsort Hnum)
                              (stable_sorted_stable _ _ _)).
  vm_compute. reflexivity.
Defined.

Lemma coarse_frame_witness :
  exists r st',
    CoarseFilterFunction example_env example_coarse example_state = Ok r st' []
    /\ r = Unchanged
    /\ purchased_securities st' = purchased_securities example_state
    /\ lastMonth st' = lastMonth example_state.
Proof.
  destruct (coarse_frame example_env example_coarse example_state)
    as (r & st' & Hrun & Hd & Hlast & _).
  assert (Hr : r = Unchanged).
  { vm_compute in Hrun. now injection Hrun as <- _. }
  exists r, st'. split; [exact Hrun|]. split; [exact Hr|].
  split; [exact Hd|]. exact (Hlast Hr).
Defined.

Lemma fine_passes_every_screen_witness :
  In "E"%string (FineFundamentalFunction Initialize
                   (example_utility :: example_foreign :: example_fine))
  /\ ~ In "U"%string (FineFundamentalFunction Initialize
                        (example_utility :: example_foreign :: example_fine))
  /\ exists x,
       In x (example_utility :: example_foreign :: example_fine)
       /\ FineFundamental.Symbol x = "E"%string
       /\ (1 # 4 < FineFundamental.ForwardROA (FineFundamental.ValuationRatios x))%Q.
Proof.
  assert (Hin : In "E"%string
                   (FineFundamentalFunction Initialize
                      (example_utility :: example_foreign :: example_fine))).
  { vm_compute. left. reflexivity. }
  split; [exact Hin|]. split.
  { intro H. vm_compute in H. intuition discriminate. }
  destruct (fine_passes_every_screen _ _ _ Hin)
    as (x & Hx & Hs & _ & _ & _ & _ & _ & Hroa).
  exists x. auto.
Defined.

Lemma fine_returns_all_when_few_witness :
  (List.length (filter (Fine.not_held Initialize)
                       (Fine.filtered_ROA example_fine_few))
   <= Z.to_nat NumberSecuritiesPerMonth)%nat
  /\ Permutation ["A"; "B"]%string
                 (FineFundamentalFunction Initialize example_fine_few).
Proof.
  assert (Hlen : (List.length (filter (Fine.not_held Initialize)
                                      (Fine.filtered_ROA example_fine_few))
                  <= Z.to_nat NumberSecuritiesPerMonth)%nat).
  { apply Nat.leb_le. vm_compute. reflexivity. }
  split; [exact Hlen|].
  exact (proj1 (fine_returns_all_when_few Initialize example_fine_few Hlen)).
Defined.

Lemma fine_no_duplicates_witness :
  NoDup (map FineFundamental.Symbol example_fine)
  /\ NoDup (FineFundamentalFunction Initialize example_fine).
Proof.
  assert (Hnd : NoDup (map FineFundamental.Symbol example_fine)).
  { cbn. repeat (constructor; [cbn; intuition discriminate|]). constructor. }
  split; [exact Hnd|].
  exact (fine_no_duplicates Initialize example_fine Hnd).
Defined.

Lemma fine_takes_lowest_roa_witness :
  NoDup (map FineFundamental.Symbol example_fine)
  /\ In (example_snapshot "D" 70000000 (1 # 2) 8)
        (Fine.filtered_ROA example_fine)
  /\ ~ In "D"%string (FineFundamentalFunction Initialize example_fine)
  /\ List.length (FineFundamentalFunction Initialize example_fine)
     = Z.to_nat NumberSecuritiesPerMonth.
Proof.
  assert (Hnd : NoDup (map FineFundamental.Symbol example_fine)).
  { cbn. repeat (constructor; [cbn; intuition discriminate|]). constructor. }
  assert (Hx : In (example_snapshot "D" 70000000 (1 # 2) 8)
                  (Fine.filtered_ROA example_fine)).
  { vm_compute. right. right. left. reflexivity. }
  assert (Hout : ~ In "D"%string (FineFundamentalFunction Initialize example_fine)).
  { intro H. vm_compute in H. intuition discriminate. }
  split; [exact Hnd|]. split; [exact Hx|]. split; [exact Hout|].
  exact (proj1 (fine_takes_lowest_roa Initialize example_fine _ Hnd Hx
                                      eq_refl Hout)).
Defined.

Lemma sell_securities_idempotent_witness :
  Dict.wf (purchased_securities example_state)
  /\ exists st1 log1,
       sell_securities 1 example_state = Ok tt st1 log1
       /\ sell_securities 1 st1 = Ok tt st1 [].
Proof.
  assert (Hwf : Dict.wf (purchased_securities example_state)).
  { cbn. repeat (constructor; [cbn; intuition discriminate|]). constructor. }
  split; [exact Hwf|].
  destruct (sell_securities_idempotent 1 example_state Hwf)
    as (st1 & log1 & H1 & H2 & _).
  exists st1, log1. auto.
Defined.

Lemma sell_securities_in_ledger_order_witness :
  Dict.wf (purchased_securities example_state)
  /\ exists st' log,
       sell_securities 1 example_state = Ok tt st' log
       /\ liquidations log = ["E"; "B"]%string
       /\ purchased_securities st' = [("D", 2)]%string.
Proof.
  assert (Hwf : Dict.wf (purchased_securities example_state)).
  { cbn. repeat (constructor; [cbn; intuition discriminate|]). constructor. }
  split; [exact Hwf|].
  destruct (sell_securities_in_ledger_order 1 example_state Hwf)
    as (st' & log & H1 & H2 & _ & _ & H3 & _).
  exists st', log. split; [exact H1|]. split; [exact H2|exact H3].
Defined.

Lemma handler_ledger_lookup_witness :
  month example_state = Some 1
  /\ Dict.wf (purchased_securities example_state)
  /\ exists st' log,
       OnSecuritiesChanged example_env example_changes example_state
       = Ok tt st' log
       /\ Dict.get "X" (purchased_securities st') = Some 1
       /\ Dict.get "E" (purchased_securities st') = None
       /\ Dict.get "D" (purchased_securities st') = Some 2.
Proof.
  assert (Hwf : Dict.wf (purchased_securities example_state)).
  { cbn. repeat (constructor; [cbn; intuition discriminate|]). constructor. }
  split; [reflexivity|]. split; [exact Hwf|].
  destruct (handler_ledger_lookup example_env example_changes example_state 1
                                  eq_refl Hwf)
    as (st' & log & H1 & _ & _ & _ & _ & Hget).
  exists st', log. split; [exact H1|].
  rewrite !Hget. repeat split.
Defined.

Lemma tick_acquires_new_symbols_only_witness :
  Dict.wf (purchased_securities Initialize)
  /\ exists st' log,
       tick (example_tick example_env) Initialize = Ok tt st' log
       /\ (List.length (acquisitions log)
           <= Z.to_nat NumberSecuritiesPerMonth)%nat.
Proof.
  assert (Hwf : Dict.wf (purchased_securities Initialize)) by constructor.
  split; [exact Hwf|].
  destruct (tick_acquires_new_symbols_only (example_tick example_env)
                                           Initialize Hwf)
    as (st' & log & H1 & H2 & _).
  exists st', log. auto.
Defined.

Lemma one_cycle_per_month_witness :
  Dict.wf (purchased_securities Initialize)
  /\ IsWarmingUp (tick_env (example_tick example_env)) = false
  /\ exists st1 log1 st2,
       tick (example_tick example_env) Initialize = Ok tt st1 log1
       /\ tick (example_tick example_env) st1 = Ok tt st2 []
       /\ purchased_securities st2 = purchased_securities st1.
Proof.
  assert (Hwf : Dict.wf (purchased_securities Initialize)) by constructor.
  split; [exact Hwf|]. split; [reflexivity|].
  destruct (one_cycle_per_month (example_tick example_env)
                                (example_tick example_env) Initialize
                                Hwf eq_refl eq_refl)
    as (st1 & log1 & st2 & H1 & H2 & H3 & _).
  exists st1, log1, st2. auto.
Defined.

Lemma warm_up_run_is_noop_witness :
  Forall warming_up [example_tick example_warm_up; example_tick example_warm_up]
  /\ run_ticks [example_tick example_warm_up; example_tick example_warm_up]
               example_state
     = Ok tt example_state [].
Proof.
  assert (H : Forall warming_up
                     [example_tick example_warm_up; example_tick example_warm_up]).
  { repeat constructor. }
  split; [exact H|]. exact (warm_up_run_is_noop _ example_state H).
Defined.

Lemma portfolio_slot_bound_witness :
  Forall calendar_month
         [example_tick example_env; example_tick example_february]
  /\ exists st log,
       run_ticks [example_tick example_env; example_tick example_february]
                 Initialize = Ok tt st log
       /\ List.length (purchased_securities st) = 4%nat
       /\ (List.length (purchased_securities st)
           <= Z.to_nat NumberSecurtitiesPortfolio)%nat.
Proof.
  assert (H : Forall calendar_month
                     [example_tick example_env; example_tick example_february]).
  { repeat (constructor; [unfold calendar_month; cbn; lia|]). constructor. }
  split; [exact H|].
  destruct (portfolio_slot_bound _ H) as (st & log & Hrun & _ & Hlen).
  exists st, log. split; [exact Hrun|]. split; [|exact Hlen].
  vm_compute in Hrun. now injection Hrun as <- _.
Defined.

Lemma fine_quota_bound_witness :
  (List.length (FineFundamentalFunction example_state example_fine)
   <= Z.to_nat NumberSecuritiesPerMonth)%nat
  /\ FineFundamentalFunction example_state example_fine = ["A"]%string
  /\ ~ In "A"%string (Dict.keys (purchased_securities example_state)).
Proof.
  destruct (fine_quota_bound example_state example_fine) as (Hlen & _ & Hnew).
  split; [exact Hlen|]. split; [vm_compute; reflexivity|].
  apply Hnew. vm_compute. left. reflexivity.
Defined.

Lemma ledger_tracks_open_positions_witness :
  exists st log,
    run_ticks [example_tick example_env; example_tick example_february]
              Initialize = Ok tt st log
    /\ forall s : Symbol,
         In s (Dict.keys (purchased_securities st)) <-> open_position log s.
Proof.
  exact (ledger_tracks_open_positions
           [example_tick example_env; example_tick example_february]).
Defined.

Lemma liquidations_follow_acquisitions_witness :
  exists st log,
    run_ticks [example_tick example_env; example_tick example_february]
              Initialize = Ok tt st log
    /\ liquidates_open [] log.
Proof.
  exact (liquidations_follow_acquisitions
           [example_tick example_env; example_tick example_february]).
Defined.
